(** * Minesweeper knowledge base (minesweeper.py): model and properties

    A shallow embedding of the classes [Sentence] and [MinesweeperAI] of
    [src/minesweeper.py].  Cells are Python tuples of two integers, sets of
    cells are finite sets, the knowledge list is a list of sentences.  Every
    sentence object of the source owns a fresh set (the constructor copies
    its argument with [set(cells)]) and is appended to the list once, so a
    list of sentence values carries the same information as the list of
    mutable objects. *)

From Stdlib Require Import ZArith Lia.
From stdpp Require Import base decidable option list sets gmap fin_sets.

Local Open Scope Z_scope.

#[local] Set Warnings "-clear-no-such-hyp".

(** A cell is the tuple [(i, j)]. *)
Abbreviation Cell := (Z * Z)%type.

(** The loops over the cells around a cell, written the same way in
    [Minesweeper.nearby_mines] and in [MinesweeperAI.add_knowledge]:
    [range(x - 1, x + 2)], and the pairs [(i, j)] in the order the two
    nested loops visit them. *)
Definition range3 (x : Z) : list Z := [x - 1; x; x + 1].

Definition window (cell : Cell) : list Cell :=
  i ← range3 cell.1; j ← range3 cell.2; [(i, j)].

(** ** class Minesweeper *)

Module Minesweeper.

(** The board once [__init__] has placed the mines: [board[i][j]] is [True]
    exactly at the cells of [self.mines], the constructor sets the two
    together and nothing writes them afterwards. *)
Record t : Type := mk { height : Z; width : Z; mines : gset Cell }.

Definition board (g : t) (c : Cell) : bool := bool_decide (c ∈ mines g).

(** One turn of the inner loop of [nearby_mines] on the running count. *)
Definition nearby_step (g : t) (cell : Cell) (count : Z) (c : Cell) : Z :=
  if decide (c = cell) then count
  else if bool_decide (0 ≤ c.1 < height g) && bool_decide (0 ≤ c.2 < width g) then
    if board g c then count + 1 else count
  else count.

Definition nearby_mines (g : t) (cell : Cell) : Z :=
  foldl (nearby_step g cell) 0 (window cell).

End Minesweeper.

(** ** class Minesweeper, the board as the list of rows it is *)

Module Board.

(** How a call ends: it returns, it raises ([ValueError] of
    [random.randrange], [IndexError] of a subscript), or its loop asks for
    one more draw than the list of draws holds. *)
Inductive outcome (A : Type) : Type :=
  | Returns (a : A)
  | Raises
  | Pending.

Arguments Returns {A} a.
Arguments Raises {A}.
Arguments Pending {A}.

(** [l[i]]: a negative index counts from the end of the list; off the list
    the subscript raises [IndexError], here [None]. *)
Definition getitem {A : Type} (l : list A) (i : Z) : option A :=
  if bool_decide (0 ≤ i) then l !! Z.to_nat i
  else if bool_decide (0 ≤ Z.of_nat (length l) + i)
       then l !! Z.to_nat (Z.of_nat (length l) + i)
       else None.

(** [l[i] = x], with the same reading of the index. *)
Definition setitem {A : Type} (l : list A) (i : Z) (x : A) : option (list A) :=
  if bool_decide (0 ≤ i < Z.of_nat (length l)) then Some (<[Z.to_nat i := x]> l)
  else if bool_decide (- Z.of_nat (length l) ≤ i < 0)
       then Some (<[Z.to_nat (Z.of_nat (length l) + i) := x]> l)
       else None.

Record t : Type := mk {
  height : Z;
  width : Z;
  mines : gset Cell;
  board : list (list bool);
  mines_found : gset Cell
}.

(** The field with no mines: [height] rows of [width] times [False]. *)
Definition empty_board (h w : Z) : list (list bool) :=
  replicate (Z.to_nat h) (replicate (Z.to_nat w) false).

(** The body of the loop that places the mines, for the pair [(i, j)] that
    the two calls of [random.randrange] have drawn: a free cell of the board
    joins [self.mines] and is set to [True]. *)
Definition place_step (mb : gset Cell * list (list bool)) (d : Cell)
    : option (gset Cell * list (list bool)) :=
  match getitem mb.2 d.1 with
  | None => None
  | Some row =>
      match getitem row d.2 with
      | None => None
      | Some true => Some mb
      | Some false =>
          match setitem row d.2 true with
          | None => None
          | Some row' =>
              match setitem mb.2 d.1 row' with
              | None => None
              | Some board' => Some ({[d]} ∪ mb.1, board')
              end
          end
      end
  end.

(** [while len(self.mines) != mines]: the draws of [random.randrange] are
    read off a list, one pair for each turn; [randrange] raises on an empty
    range. *)
Fixpoint place (h w n : Z) (draws : list Cell) (mb : gset Cell * list (list bool))
    : outcome (gset Cell * list (list bool)) :=
  if bool_decide (Z.of_nat (size mb.1) = n) then Returns mb
  else if bool_decide (h ≤ 0) || bool_decide (w ≤ 0) then Raises
  else match draws with
       | [] => Pending
       | d :: ds =>
           match place_step mb d with
           | Some mb' => place h w n ds mb'
           | None => Raises
           end
       end.

(** [__init__(height, width, mines)]. *)
Definition init (h w n : Z) (draws : list Cell) : outcome t :=
  match place h w n draws (∅, empty_board h w) with
  | Returns mb =>
      Returns {| height := h; width := w; mines := mb.1; board := mb.2;
                 mines_found := ∅ |}
  | Raises => Raises
  | Pending => Pending
  end.

(** [is_mine]: [self.board[i][j]]. *)
Definition is_mine (g : t) (cell : Cell) : option bool :=
  match getitem (board g) cell.1 with
  | None => None
  | Some row => getitem row cell.2
  end.

(** One turn of the inner loop of [nearby_mines]; the subscript is only
    evaluated behind the test of the bounds. *)
Definition nearby_step (g : t) (cell : Cell) (acc : option Z) (c : Cell) : option Z :=
  match acc with
  | None => None
  | Some count =>
      if decide (c = cell) then Some count
      else if bool_decide (0 ≤ c.1 < height g) && bool_decide (0 ≤ c.2 < width g) then
        match is_mine g c with
        | None => None
        | Some b => Some (if b then count + 1 else count)
        end
      else Some count
  end.

Definition nearby_mines (g : t) (cell : Cell) : option Z :=
  foldl (nearby_step g cell) (Some 0) (window cell).

(** [won]: [self.mines_found == self.mines]. *)
Definition won (g : t) : bool := bool_decide (mines_found g = mines g).

End Board.

(** ** class Sentence *)

Module Sentence.

Record t : Type := new { cells : gset Cell; count : Z }.

(** [__eq__]: same cell set and same count. *)
#[global] Instance eq_dec : EqDecision t.
Proof. solve_decision. Defined.

(** [known_mines]: the cells themselves when their number is the count and
    the count is not zero, otherwise a new empty set. *)
Definition known_mines (s : t) : gset Cell :=
  if bool_decide (Z.of_nat (size (cells s)) = count s) && negb (bool_decide (count s = 0))
  then cells s else ∅.

(** [known_safes]: the cells themselves when the count is zero. *)
Definition known_safes (s : t) : gset Cell :=
  if bool_decide (count s = 0) then cells s else ∅.

(** [mark_mine]: a cell of the sentence is removed and the count goes down
    by one; any other cell leaves the sentence as it is. *)
Definition mark_mine (s : t) (cell : Cell) : t :=
  if decide (cell ∈ cells s)
  then {| cells := cells s ∖ {[cell]}; count := count s - 1 |}
  else s.

(** [mark_safe]: a cell of the sentence is removed, the count stays. *)
Definition mark_safe (s : t) (cell : Cell) : t :=
  if decide (cell ∈ cells s)
  then {| cells := cells s ∖ {[cell]}; count := count s |}
  else s.

End Sentence.

(** ** class MinesweeperAI *)

Module MinesweeperAI.

Record t : Type := mk {
  height : Z;
  width : Z;
  moves_made : gset Cell;
  mines : gset Cell;
  safes : gset Cell;
  knowledge : list Sentence.t
}.

(** [__init__]: nothing played, nothing known. *)
Definition init (h w : Z) : t :=
  {| height := h; width := w; moves_made := ∅; mines := ∅; safes := ∅;
     knowledge := [] |}.

(** [mark_mine]: the cell joins [mines] and every sentence of the list
    is told so. *)
Definition mark_mine (ai : t) (cell : Cell) : t :=
  {| height := height ai; width := width ai; moves_made := moves_made ai;
     mines := {[cell]} ∪ mines ai;
     safes := safes ai;
     knowledge := (λ s, Sentence.mark_mine s cell) <$> knowledge ai |}.

(** [mark_safe]: the cell joins [safes] and every sentence of the list
    is told so. *)
Definition mark_safe (ai : t) (cell : Cell) : t :=
  {| height := height ai; width := width ai; moves_made := moves_made ai;
     mines := mines ai;
     safes := {[cell]} ∪ safes ai;
     knowledge := (λ s, Sentence.mark_safe s cell) <$> knowledge ai |}.

(** *** add_knowledge, step 3: the neighbours of the played cell *)

(** [0 <= i < self.height and 0 <= j < self.width]. *)
Definition in_bounds (ai : t) (c : Cell) : bool :=
  bool_decide (0 ≤ c.1 < height ai) && bool_decide (0 ≤ c.2 < width ai).

(** One turn of the inner loop body on the pair [(neighbors, count)]: the
    cell itself and cells off the board are skipped, a known mine lowers
    the count, a cell not known safe joins the set. *)
Definition neighbor_step (ai : t) (cell : Cell)
    (acc : gset Cell * Z) (c : Cell) : gset Cell * Z :=
  if decide (c = cell) then acc
  else if in_bounds ai c then
    if decide (c ∈ mines ai) then (acc.1, acc.2 - 1)
    else if decide (c ∈ safes ai) then acc
    else ({[c]} ∪ acc.1, acc.2)
  else acc.

Definition neighbors_count (ai : t) (cell : Cell) (count : Z) : gset Cell * Z :=
  foldl (neighbor_step ai cell) (∅, count) (window cell).

(** [newSentence = Sentence(neighbors, count)]. *)
Definition new_sentence (ai : t) (cell : Cell) (count : Z) : Sentence.t :=
  let r := neighbors_count ai cell count in
  {| Sentence.cells := r.1; Sentence.count := r.2 |}.

Definition set_knowledge (ai : t) (k : list Sentence.t) : t :=
  {| height := height ai; width := width ai; moves_made := moves_made ai;
     mines := mines ai; safes := safes ai; knowledge := k |}.

(** *** add_knowledge, step 4: one pass over the sentences *)

(** [for cell in mines.copy(): self.mark_mine(cell)]: the copy is a snapshot,
    visited in the order of the set's elements. *)
Definition mark_mines (ai : t) (cs : gset Cell) : t :=
  foldl mark_mine ai (elements cs).

Definition mark_safes (ai : t) (cs : gset Cell) : t :=
  foldl mark_safe ai (elements cs).

(** The loop body for the sentence [s] that the iteration has reached:
    a non-empty [known_mines] is marked, else a non-empty [known_safes]. *)
Definition extract_one (ai : t) (s : Sentence.t) : t :=
  let mines := Sentence.known_mines s in
  let safes := Sentence.known_safes s in
  if decide (mines ≠ ∅) then mark_mines ai mines
  else if decide (safes ≠ ∅) then mark_safes ai safes
  else ai.

(** [for sentence in self.knowledge]: the list iterator holds an index and
    reads the list at that index on every turn, so each sentence is seen
    as the marks made so far have left it.  [n] bounds the turns; the marks
    never change the length of the list, so [length (knowledge ai)] turns
    from index 0 reach its end. *)
Fixpoint extract_loop (n : nat) (i : nat) (ai : t) : t :=
  match n with
  | O => ai
  | S n' =>
      match knowledge ai !! i with
      | None => ai
      | Some s => extract_loop n' (S i) (extract_one ai s)
      end
  end.

Definition extract_pass (ai : t) : t :=
  extract_loop (length (knowledge ai)) 0 ai.

(** *** add_knowledge: the list comprehension that drops empty sentences *)

(** [sentence != Sentence(set(), 0)]. *)
Definition prune (k : list Sentence.t) : list Sentence.t :=
  filter (λ s, s ≠ Sentence.new ∅ 0) k.

(** *** add_knowledge, step 5: the subset rule *)

(** [Sentence(superSet.cells - subSet.cells, superSet.count - subSet.count)]. *)
Definition inferred (sub sup : Sentence.t) : Sentence.t :=
  {| Sentence.cells := Sentence.cells sup ∖ Sentence.cells sub;
     Sentence.count := Sentence.count sup - Sentence.count sub |}.

(** The body of the inner loop for the pair [(sub, sup)]. *)
Definition infer_step (k : list Sentence.t) (sub sup : Sentence.t) : list Sentence.t :=
  if decide (Sentence.cells sub ⊂ Sentence.cells sup) then
    let c := inferred sub sup in
    if decide (c ∈ k) then k else k ++ [c]
  else k.

(** The inner loop [for superSetSentence in self.knowledge], from index [j]:
    the list grows under the iterator, which goes on to the sentences
    appended meanwhile.  [None]: the fuel ran out first. *)
Fixpoint infer_inner (fuel : nat) (k : list Sentence.t) (sub : Sentence.t) (j : nat)
    : option (list Sentence.t) :=
  match fuel with
  | O => None
  | S f =>
      match k !! j with
      | None => Some k
      | Some sup => infer_inner f (infer_step k sub sup) sub (S j)
      end
  end.

(** The outer loop [for subSetSentence in self.knowledge], from index [i]. *)
Fixpoint infer_outer (fuel : nat) (k : list Sentence.t) (i : nat)
    : option (list Sentence.t) :=
  match fuel with
  | O => None
  | S f =>
      match k !! i with
      | None => Some k
      | Some sub =>
          match infer_inner f k sub 0 with
          | None => None
          | Some k' => infer_outer f k' (S i)
          end
      end
  end.

(** *** add_knowledge *)

(** Steps 1 to 4 and the pruning: these always end. *)
Definition observe (ai : t) (cell : Cell) (count : Z) : t :=
  let ai1 :=
    {| height := height ai; width := width ai;
       moves_made := {[cell]} ∪ moves_made ai;
       mines := mines ai; safes := safes ai; knowledge := knowledge ai |} in
  let ai2 := mark_safe ai1 cell in
  let ai3 := set_knowledge ai2 (knowledge ai2 ++ [new_sentence ai2 cell count]) in
  let ai4 := extract_pass ai3 in
  set_knowledge ai4 (prune (knowledge ai4)).

Definition add_knowledge (fuel : nat) (ai : t) (cell : Cell) (count : Z) : option t :=
  let ai5 := observe ai cell count in
  match infer_outer fuel (knowledge ai5) 0 with
  | None => None
  | Some k => Some (set_knowledge ai5 k)
  end.

(** *** make_random_move *)

(** The cells added to [eventualMoves], in the order of the two loops over
    [range(0, height)] and [range(0, width)]. *)
Definition grid (ai : t) : list Cell :=
  i ← seqZ 0 (height ai); j ← seqZ 0 (width ai); [(i, j)].

Definition eventual_adds (ai : t) : list Cell :=
  filter (λ c, (c ∉ moves_made ai) ∧ (c ∉ mines ai)) (grid ai).

Definition eventualMoves (ai : t) : gset Cell := list_to_set (eventual_adds ai).

Section RandomMove.

(** [set.pop()] takes some element out of a non-empty set.  Which one is
    fixed by the hash table, that is by the sequence of [add]s that built
    the set: the model leaves the choice open as a function of that
    sequence. *)
Variable set_pop : list Cell → Cell.

(** The method assigns no attribute of [self] and calls nothing that
    changes one; the state is returned next to the move. *)
Definition make_random_move (ai : t) : option Cell * t :=
  if decide (size (eventualMoves ai) = 0%nat) then (None, ai)
  else (Some (set_pop (eventual_adds ai)), ai).

End RandomMove.

(** *** make_safe_move *)

Section SafeMove.

(** [for cell in self.safes] visits the cells of the set in the order of its
    hash table; the model leaves that order open as a function of the set. *)
Variable set_iter : gset Cell → list Cell.

(** The first cell of the visit that is not in [moves_made], [None] when
    the visit ends without one.  Like [make_random_move] the method assigns
    nothing; the state is returned next to the move. *)
Definition make_safe_move (ai : t) : option Cell * t :=
  if bool_decide (0 < size (safes ai))%nat then
    match list_find (λ c, c ∉ moves_made ai) (set_iter (safes ai)) with
    | Some (_, cell) => (Some cell, ai)
    | None => (None, ai)
    end
  else (None, ai).

End SafeMove.

End MinesweeperAI.

(** ** Vocabulary of the properties *)

(** The bound every sentence should respect: [0 <= count <= |cells|]. *)
Definition bounded (s : Sentence.t) : Prop :=
  0 ≤ Sentence.count s ≤ Z.of_nat (size (Sentence.cells s)).

(** A layout of mines is the set [m] of the cells that hold one.  A sentence
    holds in [m] when its count is the number of its cells that are in [m]. *)
Definition holds (m : gset Cell) (s : Sentence.t) : Prop :=
  Sentence.count s = Z.of_nat (size (Sentence.cells s ∩ m)).

(** The in-bounds neighbours of a cell, the cell itself left out. *)
Definition nearby (ai : MinesweeperAI.t) (cell : Cell) : gset Cell :=
  list_to_set
    (filter (λ c, c ≠ cell ∧ MinesweeperAI.in_bounds ai c) (window cell)).

(** A knowledge base agrees with the layout [m]. *)
Definition consistent (m : gset Cell) (ai : MinesweeperAI.t) : Prop :=
  MinesweeperAI.mines ai ⊆ m ∧ MinesweeperAI.safes ai ## m ∧
  Forall (holds m) (MinesweeperAI.knowledge ai).

(** No sentence mentions a cell that is already marked, and no cell is marked
    both ways. *)
Definition clean (ai : MinesweeperAI.t) : Prop :=
  MinesweeperAI.mines ai ## MinesweeperAI.safes ai ∧
  Forall (λ s, Sentence.cells s ## MinesweeperAI.mines ai ∪ MinesweeperAI.safes ai)
         (MinesweeperAI.knowledge ai).

(** The cells [make_random_move] may choose from, as the documentation
    describes them: on the board, not played, not a known mine. *)
Definition candidates (ai : MinesweeperAI.t) : gset Cell :=
  list_to_set (MinesweeperAI.grid ai) ∖ MinesweeperAI.moves_made ai ∖ MinesweeperAI.mines ai.

(** What [set.pop()] promises: an element of the set it is called on. *)
Definition pops_member (set_pop : list Cell → Cell) : Prop :=
  ∀ l, l ≠ [] → set_pop l ∈ l.

(** The calls of a game on the board [g] when every one of them agrees with
    the board: an observation of a cell that is no mine, with the count the
    board gives for it; a cell marked as a mine is one, a cell marked safe
    is none. *)
Inductive truthful (g : Minesweeper.t) : MinesweeperAI.t → Prop :=
  | truthful_init :
      truthful g (MinesweeperAI.init (Minesweeper.height g) (Minesweeper.width g))
  | truthful_add ai fuel cell ai' :
      truthful g ai → cell ∉ Minesweeper.mines g →
      MinesweeperAI.add_knowledge fuel ai cell (Minesweeper.nearby_mines g cell) = Some ai' →
      truthful g ai'
  | truthful_mine ai cell :
      truthful g ai → cell ∈ Minesweeper.mines g →
      truthful g (MinesweeperAI.mark_mine ai cell)
  | truthful_safe ai cell :
      truthful g ai → cell ∉ Minesweeper.mines g →
      truthful g (MinesweeperAI.mark_safe ai cell).

(** The calls that respect what is already marked: no observation of a
    known mine, no cell marked against an earlier mark. *)
Inductive careful : MinesweeperAI.t → Prop :=
  | careful_init h w : careful (MinesweeperAI.init h w)
  | careful_add ai fuel cell count ai' :
      careful ai → cell ∉ MinesweeperAI.mines ai →
      MinesweeperAI.add_knowledge fuel ai cell count = Some ai' → careful ai'
  | careful_mine ai cell :
      careful ai → cell ∉ MinesweeperAI.safes ai →
      careful (MinesweeperAI.mark_mine ai cell)
  | careful_safe ai cell :
      careful ai → cell ∉ MinesweeperAI.mines ai →
      careful (MinesweeperAI.mark_safe ai cell).

(** The list is closed under the subset rule for the sentences before
    position [i] taken as the subset, and closed altogether. *)
Definition closed_upto (i : nat) (k : list Sentence.t) : Prop :=
  ∀ a j sub sup, (a < i)%nat → k !! a = Some sub → k !! j = Some sup →
    Sentence.cells sub ⊂ Sentence.cells sup → MinesweeperAI.inferred sub sup ∈ k.

Definition rule_closed (k : list Sentence.t) : Prop :=
  ∀ sub sup, sub ∈ k → sup ∈ k →
    Sentence.cells sub ⊂ Sentence.cells sup → MinesweeperAI.inferred sub sup ∈ k.

(** How many sentences of a stock [C] the list does not hold yet: what the
    loops of the subset rule can still append when all they derive is in
    the stock. *)
Definition missing (C k : list Sentence.t) : nat :=
  length (filter (λ s, s ∉ k) C).

(** All the sets of cells drawn from a list of cells, and with them the
    stock of the sentences over a set [U] of cells that hold in a layout. *)
Fixpoint subsets (l : list Cell) : list (gset Cell) :=
  match l with
  | [] => [∅]
  | x :: l' => subsets l' ++ ((λ X, {[x]} ∪ X) <$> subsets l')
  end.

Definition stock (m U : gset Cell) : list Sentence.t :=
  (λ X, Sentence.new X (Z.of_nat (size (X ∩ m)))) <$> subsets (elements U).

(** One turn of the pass of step 4, at position [i] of the list. *)
Definition extract_turn (ai : MinesweeperAI.t) (i : nat) : MinesweeperAI.t :=
  match MinesweeperAI.knowledge ai !! i with
  | Some s => MinesweeperAI.extract_one ai s
  | None => ai
  end.

(** Whole sets marked at once, on one sentence. *)
Definition strike_mines (X : gset Cell) (s : Sentence.t) : Sentence.t :=
  {| Sentence.cells := Sentence.cells s ∖ X;
     Sentence.count := Sentence.count s - Z.of_nat (size (Sentence.cells s ∩ X)) |}.

Definition strike_safes (X : gset Cell) (s : Sentence.t) : Sentence.t :=
  {| Sentence.cells := Sentence.cells s ∖ X; Sentence.count := Sentence.count s |}.

(** A sequence of observations, each with its own fuel. *)
Definition play (fuel : nat) (ai : MinesweeperAI.t) (obs : list (Cell * Z))
    : option MinesweeperAI.t :=
  foldl (λ o p, a ← o; MinesweeperAI.add_knowledge fuel a p.1 p.2) (Some ai) obs.

(** One choice [set.pop()] can make: the cell that was added first. *)
Definition first_added (l : list Cell) : Cell := hd (0, 0) l.

(** What the iteration over a set promises: the cells visited are the cells
    of the set. *)
Definition visits_members (set_iter : gset Cell → list Cell) : Prop :=
  ∀ X c, c ∈ set_iter X ↔ c ∈ X.

(** What [random.randrange] promises for the pairs it draws. *)
Definition drawn (h w : Z) (draws : list Cell) : Prop :=
  Forall (λ d, 0 ≤ d.1 < h ∧ 0 ≤ d.2 < w) draws.

(** A field of [h] rows of [w] cells that says [True] exactly at the cells
    of [m], all of them on the field. *)
Definition agrees (h w : Z) (m : gset Cell) (b : list (list bool)) : Prop :=
  (∀ c, c ∈ m → 0 ≤ c.1 < h ∧ 0 ≤ c.2 < w) ∧
  length b = Z.to_nat h ∧
  Forall (λ row, length row = Z.to_nat w) b ∧
  ∀ i j, 0 ≤ i < h → 0 ≤ j < w →
    ∃ row, b !! Z.to_nat i = Some row ∧
           row !! Z.to_nat j = Some (bool_decide ((i, j) ∈ m)).

Definition laid (g : Board.t) : Prop :=
  agrees (Board.height g) (Board.width g) (Board.mines g) (Board.board g).

(** The game of the knowledge-base properties behind a board of rows. *)
Definition layout (g : Board.t) : Minesweeper.t :=
  Minesweeper.mk (Board.height g) (Board.width g) (Board.mines g).

(** The states of the knowledge base that calls of its methods reach, with
    any arguments. *)
Inductive reachable : MinesweeperAI.t → Prop :=
  | reachable_init h w : reachable (MinesweeperAI.init h w)
  | reachable_add ai fuel cell count ai' :
      reachable ai → MinesweeperAI.add_knowledge fuel ai cell count = Some ai' →
      reachable ai'
  | reachable_mine ai cell : reachable ai → reachable (MinesweeperAI.mark_mine ai cell)
  | reachable_safe ai cell : reachable ai → reachable (MinesweeperAI.mark_safe ai cell).

(** Every move made is marked safe, and the sentences speak of cells of the
    board that carry no mark. *)
Definition tidy (ai : MinesweeperAI.t) : Prop :=
  MinesweeperAI.moves_made ai ⊆ MinesweeperAI.safes ai ∧
  Forall (λ s, Sentence.cells s ## MinesweeperAI.mines ai ∪ MinesweeperAI.safes ai ∧
               ∀ c, c ∈ Sentence.cells s →
                    0 ≤ c.1 < MinesweeperAI.height ai ∧ 0 ≤ c.2 < MinesweeperAI.width ai)
         (MinesweeperAI.knowledge ai).

(** What the turns of the pass keep for the sentence at position [n], when
    its count is 0: the count, and its cells either in it or marked safe. *)
Definition zero_at (m N : gset Cell) (n : nat) (ai : MinesweeperAI.t) : Prop :=
  consistent m ai ∧
  ∃ s, MinesweeperAI.knowledge ai !! n = Some s ∧ Sentence.count s = 0 ∧
       N ⊆ Sentence.cells s ∪ MinesweeperAI.safes ai.

#[global] Instance bounded_dec (s : Sentence.t) : Decision (bounded s).
Proof. unfold bounded. apply _. Defined.

#[global] Instance holds_dec (m : gset Cell) (s : Sentence.t) : Decision (holds m s).
Proof. unfold holds. apply _. Defined.

(** Rewriting with an equation between sets that [set_solver] proves. *)
Tactic Notation "set_rw" constr(X) "as" constr(Y) :=
  let H := fresh "Heq" in
  assert (X = Y) as H by set_solver; rewrite H; clear H.

(** Closed facts that evaluation settles. *)
Ltac by_evaluation :=
  first [ apply (bool_decide_unpack _); vm_compute; exact I
        | apply (proj1 (bool_decide_eq_false _)); vm_compute; reflexivity ].

(** ** Sentences *)

Section SentenceFacts.

Import Sentence.

Implicit Types (s : Sentence.t) (c : Cell) (m X : gset Cell).

Lemma known_mines_case s :
  known_mines s = cells s ∧ Z.of_nat (size (cells s)) = count s ∧ count s ≠ 0
  ∨ known_mines s = ∅ ∧ ¬ (Z.of_nat (size (cells s)) = count s ∧ count s ≠ 0).
Proof.
  unfold known_mines.
  destruct (bool_decide_reflect (Z.of_nat (size (cells s)) = count s));
    destruct (bool_decide_reflect (count s = 0)); simpl; intuition.
Qed.

Lemma known_safes_case s :
  known_safes s = cells s ∧ count s = 0 ∨ known_safes s = ∅ ∧ count s ≠ 0.
Proof. unfold known_safes. case_bool_decide; auto. Qed.

Lemma mark_mine_cells s c : cells (mark_mine s c) = cells s ∖ {[c]}.
Proof. unfold mark_mine. case_decide; simpl; [done | set_solver]. Qed.

Lemma mark_safe_cells s c : cells (mark_safe s c) = cells s ∖ {[c]}.
Proof. unfold mark_safe. case_decide; simpl; [done | set_solver]. Qed.

Lemma mark_mine_absent s c : c ∉ cells s → mark_mine s c = s.
Proof. unfold mark_mine. by case_decide. Qed.

Lemma mark_safe_absent s c : c ∉ cells s → mark_safe s c = s.
Proof. unfold mark_safe. by case_decide. Qed.

Lemma size_remove X c : c ∈ X → Z.of_nat (size (X ∖ {[c]})) = Z.of_nat (size X) - 1.
Proof.
  intros Hc. rewrite size_difference by set_solver. rewrite size_singleton.
  assert (size X ≠ 0%nat) by (apply size_non_empty_iff; set_solver). lia.
Qed.

Lemma mark_mine_bounded s c :
  bounded s → c ∉ cells s ∨ 1 ≤ count s → bounded (mark_mine s c).
Proof.
  unfold bounded, mark_mine. intros Hb Hc. case_decide; simpl; [| done].
  rewrite size_remove by done. destruct Hc; [done | lia].
Qed.

Lemma mark_safe_bounded s c :
  bounded s → c ∉ cells s ∨ count s < Z.of_nat (size (cells s)) → bounded (mark_safe s c).
Proof.
  unfold bounded, mark_safe. intros Hb Hc. case_decide; simpl; [| done].
  rewrite size_remove by done. destruct Hc; [done | lia].
Qed.

Lemma holds_bounded m s : holds m s → bounded s.
Proof.
  unfold holds, bounded. intros ->. split; [lia |].
  apply inj_le, subseteq_size. set_solver.
Qed.

Lemma mark_mine_holds m s c : c ∈ m → holds m s → holds m (mark_mine s c).
Proof.
  unfold holds, mark_mine. intros Hm Hs. case_decide; simpl; [| done].
  set_rw ((cells s ∖ {[c]}) ∩ m) as ((cells s ∩ m) ∖ {[c]}).
  rewrite size_remove by set_solver. lia.
Qed.

Lemma mark_safe_holds m s c : c ∉ m → holds m s → holds m (mark_safe s c).
Proof.
  unfold holds, mark_safe. intros Hm Hs. case_decide; simpl; [| done].
  set_rw ((cells s ∖ {[c]}) ∩ m) as (cells s ∩ m). done.
Qed.

End SentenceFacts.

(** ** Marking cells in the knowledge base *)

Section Marks.

Import MinesweeperAI.

Implicit Types (ai : MinesweeperAI.t) (s : Sentence.t) (c : Cell) (m X : gset Cell).

Lemma sentence_eq s1 s2 :
  Sentence.cells s1 = Sentence.cells s2 → Sentence.count s1 = Sentence.count s2 → s1 = s2.
Proof. destruct s1, s2; simpl; congruence. Qed.

Lemma strike_mines_empty s : strike_mines ∅ s = s.
Proof.
  apply sentence_eq; simpl; [set_solver |].
  set_rw (Sentence.cells s ∩ ∅) as (∅ : gset Cell).
  rewrite size_empty. lia.
Qed.

Lemma strike_safes_empty s : strike_safes ∅ s = s.
Proof. apply sentence_eq; simpl; [set_solver | done]. Qed.

Lemma strike_mines_mark X s c :
  strike_mines X (Sentence.mark_mine s c) = strike_mines ({[c]} ∪ X) s.
Proof.
  unfold Sentence.mark_mine. case_decide as Hc; apply sentence_eq; simpl.
  - set_solver.
  - assert (Sentence.cells s ∩ ({[c]} ∪ X)
            = {[c]} ∪ (Sentence.cells s ∖ {[c]}) ∩ X) as ->.
    { apply set_eq. intros x. destruct (decide (x = c)); set_solver. }
    rewrite (size_union (C:=gset Cell) {[c]}) by set_solver.
    rewrite size_singleton. lia.
  - set_solver.
  - do 3 f_equal. set_solver.
Qed.

Lemma strike_safes_mark X s c :
  strike_safes X (Sentence.mark_safe s c) = strike_safes ({[c]} ∪ X) s.
Proof.
  unfold Sentence.mark_safe. case_decide; apply sentence_eq; simpl; set_solver.
Qed.

(** Marking the cells of a list one after the other comes to striking the
    set of them from every sentence: the order of the visit is immaterial. *)
Lemma foldl_mark_mine l ai :
  foldl mark_mine ai l =
  {| height := height ai; width := width ai; moves_made := moves_made ai;
     mines := list_to_set l ∪ mines ai; safes := safes ai;
     knowledge := strike_mines (list_to_set l) <$> knowledge ai |}.
Proof.
  revert ai. induction l as [|c l IH]; intros ai; simpl.
  - destruct ai; simpl. f_equal; [set_solver |].
    rewrite <- (list_fmap_id knowledge0) at 1.
    apply list_fmap_ext. intros _ s _. by rewrite strike_mines_empty.
  - rewrite IH. simpl. f_equal; [set_solver |].
    rewrite <- list_fmap_compose. apply list_fmap_ext. intros _ s _. simpl.
    apply strike_mines_mark.
Qed.

Lemma foldl_mark_safe l ai :
  foldl mark_safe ai l =
  {| height := height ai; width := width ai; moves_made := moves_made ai;
     mines := mines ai; safes := list_to_set l ∪ safes ai;
     knowledge := strike_safes (list_to_set l) <$> knowledge ai |}.
Proof.
  revert ai. induction l as [|c l IH]; intros ai; simpl.
  - destruct ai; simpl. f_equal; [set_solver |].
    rewrite <- (list_fmap_id knowledge0) at 1.
    apply list_fmap_ext. intros _ s _. by rewrite strike_safes_empty.
  - rewrite IH. simpl. f_equal; [set_solver |].
    rewrite <- list_fmap_compose. apply list_fmap_ext. intros _ s _. simpl.
    apply strike_safes_mark.
Qed.

Lemma mark_mines_eq ai X :
  mark_mines ai X =
  {| height := height ai; width := width ai; moves_made := moves_made ai;
     mines := X ∪ mines ai; safes := safes ai;
     knowledge := strike_mines X <$> knowledge ai |}.
Proof. unfold mark_mines. by rewrite foldl_mark_mine, list_to_set_elements_L. Qed.

Lemma mark_safes_eq ai X :
  mark_safes ai X =
  {| height := height ai; width := width ai; moves_made := moves_made ai;
     mines := mines ai; safes := X ∪ safes ai;
     knowledge := strike_safes X <$> knowledge ai |}.
Proof. unfold mark_safes. by rewrite foldl_mark_safe, list_to_set_elements_L. Qed.

(** Any order of visit of the snapshot gives the state of the model. *)
Lemma mark_mines_any_order ai X l : l ≡ₚ elements X → foldl mark_mine ai l = mark_mines ai X.
Proof.
  intros Hl. rewrite mark_mines_eq, foldl_mark_mine.
  assert (list_to_set l = X) as ->; [| done].
  apply set_eq. intros x. rewrite elem_of_list_to_set, Hl. apply elem_of_elements.
Qed.

Lemma mark_safes_any_order ai X l : l ≡ₚ elements X → foldl mark_safe ai l = mark_safes ai X.
Proof.
  intros Hl. rewrite mark_safes_eq, foldl_mark_safe.
  assert (list_to_set l = X) as ->; [| done].
  apply set_eq. intros x. rewrite elem_of_list_to_set, Hl. apply elem_of_elements.
Qed.

Lemma strike_mines_holds m X s : X ⊆ m → holds m s → holds m (strike_mines X s).
Proof.
  unfold holds. intros HX Hs. simpl. rewrite Hs.
  assert (Sentence.cells s ∩ m
          = Sentence.cells s ∩ X ∪ (Sentence.cells s ∖ X) ∩ m) as ->.
  { apply set_eq. intros x. destruct (decide (x ∈ X)); set_solver. }
  rewrite (size_union (C:=gset Cell) (Sentence.cells s ∩ X)) by set_solver. lia.
Qed.

Lemma strike_safes_holds m X s : X ## m → holds m s → holds m (strike_safes X s).
Proof.
  unfold holds. intros HX Hs. simpl. rewrite Hs. do 2 f_equal. set_solver.
Qed.

Lemma known_mines_holds m s : holds m s → Sentence.known_mines s ⊆ m.
Proof.
  intros Hs. destruct (known_mines_case s) as [(-> & Hn & _) | [-> _]]; [| set_solver].
  unfold holds in Hs.
  assert (Sentence.cells s ∩ m = Sentence.cells s) as <-; [| set_solver].
  apply set_subseteq_size_eq; [set_solver | lia].
Qed.

Lemma known_safes_holds m s : holds m s → Sentence.known_safes s ## m.
Proof.
  intros Hs. destruct (known_safes_case s) as [[-> Hn] | [-> _]]; [| set_solver].
  unfold holds in Hs.
  assert (Sentence.cells s ∩ m = ∅); [| set_solver].
  apply leibniz_equiv, size_empty_iff. lia.
Qed.

Lemma mark_mine_consistent m ai c : c ∈ m → consistent m ai → consistent m (mark_mine ai c).
Proof.
  intros Hc (Hm & Hs & Hk). repeat split; simpl; [set_solver | done |].
  apply Forall_fmap. eapply Forall_impl; [done |]. intros s. simpl.
  by apply mark_mine_holds.
Qed.

Lemma mark_safe_consistent m ai c : c ∉ m → consistent m ai → consistent m (mark_safe ai c).
Proof.
  intros Hc (Hm & Hs & Hk). repeat split; simpl; [done | set_solver |].
  apply Forall_fmap. eapply Forall_impl; [done |]. intros s. simpl.
  by apply mark_safe_holds.
Qed.

Lemma extract_one_consistent m ai s :
  consistent m ai → holds m s → consistent m (extract_one ai s).
Proof.
  intros (Hm & Hs & Hk) Hh. unfold extract_one.
  pose proof (known_mines_holds m s Hh). pose proof (known_safes_holds m s Hh).
  repeat case_decide; [rewrite mark_mines_eq | rewrite mark_safes_eq | done];
    repeat split; simpl; try done; try set_solver.
  - apply Forall_fmap. eapply Forall_impl; [done |]. intros s'. simpl.
    by apply strike_mines_holds.
  - apply Forall_fmap. eapply Forall_impl; [done |]. intros s'. simpl.
    by apply strike_safes_holds.
Qed.

(** The pass over the sentences keeps whatever every turn of it keeps. *)
Lemma extract_loop_keeps (P : MinesweeperAI.t → Prop) :
  (∀ ai s, P ai → s ∈ knowledge ai → P (extract_one ai s)) →
  ∀ n i ai, P ai → P (extract_loop n i ai).
Proof.
  intros HP. induction n as [|n IH]; intros i ai Hai; simpl; [done |].
  destruct (knowledge ai !! i) as [s|] eqn:Hi; [| done].
  apply IH, HP; [done |]. by eapply list_elem_of_lookup_2.
Qed.

Lemma extract_pass_consistent m ai : consistent m ai → consistent m (extract_pass ai).
Proof.
  apply extract_loop_keeps. intros a s Ha Hs. apply extract_one_consistent; [done |].
  destruct Ha as (_ & _ & Hk). by eapply Forall_forall in Hk.
Qed.

End Marks.

(** ** The sentence built from an observation *)

Section NewSentence.

Import MinesweeperAI.

Implicit Types (ai : MinesweeperAI.t) (s : Sentence.t) (c cell : Cell) (m : gset Cell).

Lemma window_NoDup cell : NoDup (window cell).
Proof.
  destruct cell as [a b]. unfold window, range3. simpl.
  repeat (apply NoDup_cons; split;
    [ intros H;
      repeat (apply elem_of_cons in H as [H | H]; [inversion H; lia |]);
      by apply elem_of_nil in H | ]).
  by apply NoDup_nil.
Qed.

(** The two loops as one sweep over a list without repetition: the cells
    kept are the in-bounds ones that are neither the played cell nor marked,
    and the count drops by the number of known mines among them. *)
Lemma neighbors_fold ai cell l acc :
  NoDup l →
  let Nb : gset Cell := list_to_set (filter (λ c, c ≠ cell ∧ in_bounds ai c) l) in
  foldl (neighbor_step ai cell) acc l =
  (acc.1 ∪ (Nb ∖ mines ai ∖ safes ai), acc.2 - Z.of_nat (size (Nb ∩ mines ai))).
Proof.
  revert acc. induction l as [|c l IH]; intros [nb cnt] Hnd; simpl.
  - f_equal; [set_solver |].
    set_rw (∅ ∩ mines ai) as (∅ : gset Cell). rewrite size_empty. lia.
  - apply NoDup_cons in Hnd as [Hc Hnd]. rewrite IH by done. clear IH.
    set (Nb := list_to_set (filter (λ c, c ≠ cell ∧ in_bounds ai c) l) : gset Cell).
    assert (c ∉ Nb) as HcN.
    { unfold Nb. rewrite elem_of_list_to_set, list_elem_of_filter. tauto. }
    unfold neighbor_step. rewrite filter_cons.
    destruct (decide (c = cell)) as [-> | Hne].
    { rewrite decide_False by tauto. done. }
    destruct (in_bounds ai c) eqn:Hb.
    2: { rewrite decide_False by (simpl; tauto). done. }
    destruct (decide (c ≠ cell ∧ true)) as [_ | Hn]; [| destruct Hn; by split].
    simpl. fold Nb. clearbody Nb.
    destruct (decide (c ∈ mines ai)) as [Hm | Hm]; simpl.
    { apply (f_equal2 pair); [set_solver |].
      set_rw (({[c]} ∪ Nb) ∩ mines ai) as ({[c]} ∪ Nb ∩ mines ai).
      rewrite (size_union (C:=gset Cell) {[c]}) by set_solver.
      rewrite size_singleton. lia. }
    set_rw (({[c]} ∪ Nb) ∩ mines ai) as (Nb ∩ mines ai).
    destruct (decide (c ∈ safes ai)); simpl; (apply (f_equal2 pair); [set_solver | done]).
Qed.

Lemma new_sentence_cells ai cell count :
  Sentence.cells (new_sentence ai cell count) = nearby ai cell ∖ mines ai ∖ safes ai.
Proof.
  unfold new_sentence, neighbors_count. cbv zeta. cbn [Sentence.cells].
  rewrite neighbors_fold by apply window_NoDup. cbn [fst]. unfold nearby. set_solver.
Qed.

Lemma new_sentence_count ai cell count :
  Sentence.count (new_sentence ai cell count) =
  count - Z.of_nat (size (nearby ai cell ∩ mines ai)).
Proof.
  unfold new_sentence, neighbors_count. cbv zeta. cbn [Sentence.count].
  rewrite neighbors_fold by apply window_NoDup. done.
Qed.

(** With the number of mines around the cell as the count, the new sentence
    holds in the layout. *)
Lemma new_sentence_holds m ai cell :
  mines ai ⊆ m → safes ai ## m →
  holds m (new_sentence ai cell (Z.of_nat (size (nearby ai cell ∩ m)))).
Proof.
  intros Hm Hs. unfold holds. rewrite new_sentence_cells, new_sentence_count.
  set (N := nearby ai cell).
  assert (N ∩ m = N ∩ mines ai ∪ (N ∖ mines ai ∖ safes ai) ∩ m) as ->.
  { apply set_eq. intros x. destruct (decide (x ∈ mines ai)); set_solver. }
  rewrite (size_union (C:=gset Cell) (N ∩ mines ai)) by set_solver. lia.
Qed.

End NewSentence.

(** ** The subset rule *)

Section SubsetRule.

Import MinesweeperAI.

Implicit Types (s sub sup : Sentence.t) (k : list Sentence.t) (m : gset Cell).

Lemma inferred_holds m sub sup :
  Sentence.cells sub ⊆ Sentence.cells sup →
  holds m sub → holds m sup → holds m (inferred sub sup).
Proof.
  unfold holds. intros Hsub Ha Hb. simpl. rewrite Ha, Hb.
  assert (Sentence.cells sup ∩ m
          = Sentence.cells sub ∩ m ∪ (Sentence.cells sup ∖ Sentence.cells sub) ∩ m) as ->.
  { apply set_eq. intros x. destruct (decide (x ∈ Sentence.cells sub)); set_solver. }
  rewrite (size_union (C:=gset Cell) (Sentence.cells sub ∩ m)) by set_solver. lia.
Qed.

Lemma infer_step_new k sub sup :
  Sentence.cells sub ⊂ Sentence.cells sup → inferred sub sup ∉ k →
  infer_step k sub sup = k ++ [inferred sub sup].
Proof. intros Hs Hk. unfold infer_step. by rewrite decide_True, decide_False. Qed.

Lemma infer_step_known k sub sup :
  inferred sub sup ∈ k → infer_step k sub sup = k.
Proof. intros Hk. unfold infer_step. case_decide; [by rewrite decide_True | done]. Qed.

Lemma infer_step_skip k sub sup :
  ¬ Sentence.cells sub ⊂ Sentence.cells sup → infer_step k sub sup = k.
Proof. intros Hs. unfold infer_step. by rewrite decide_False. Qed.

Lemma infer_step_prefix k sub sup : k `prefix_of` infer_step k sub sup.
Proof. unfold infer_step. repeat case_decide; try done. by apply prefix_app_r. Qed.

Lemma infer_step_elem k sub sup :
  Sentence.cells sub ⊂ Sentence.cells sup → inferred sub sup ∈ infer_step k sub sup.
Proof.
  intros Hs. unfold infer_step. rewrite decide_True by done. simpl.
  case_decide; [done |]. apply elem_of_app. right. by apply list_elem_of_singleton.
Qed.

Lemma infer_step_keeps (Q : Sentence.t → Prop) k sub sup :
  (Sentence.cells sub ⊂ Sentence.cells sup → Q (inferred sub sup)) →
  Forall Q k → Forall Q (infer_step k sub sup).
Proof.
  intros HQ Hk. unfold infer_step. repeat case_decide; try done.
  apply Forall_app. split; [done |]. apply Forall_singleton. auto.
Qed.

Lemma infer_inner_prefix fuel k sub j k' :
  infer_inner fuel k sub j = Some k' → k `prefix_of` k'.
Proof.
  revert k j. induction fuel as [|f IH]; intros k j; simpl; [done |].
  destruct (k !! j) as [sup|]; [| by intros [= ->]].
  intros H. etrans; [apply infer_step_prefix | by eapply IH].
Qed.

Lemma infer_outer_prefix fuel k i k' :
  infer_outer fuel k i = Some k' → k `prefix_of` k'.
Proof.
  revert k i. induction fuel as [|f IH]; intros k i; simpl; [done |].
  destruct (k !! i) as [sub|]; [| by intros [= ->]].
  destruct (infer_inner f k sub 0) as [k1|] eqn:Hin; [| done].
  intros H. etrans; [by eapply infer_inner_prefix | by eapply IH].
Qed.

Lemma prefix_elem (k k' : list Sentence.t) s : k `prefix_of` k' → s ∈ k → s ∈ k'.
Proof. intros [l ->] Hs. apply elem_of_app. by left. Qed.

(** Whatever the sentences of the list satisfy and the rule keeps is
    satisfied by the sentences of the list the loops leave. *)
Lemma infer_inner_keeps (Q : Sentence.t → Prop) fuel k sub j k' :
  (∀ sup, sup ∈ k' → Sentence.cells sub ⊂ Sentence.cells sup → Q sup → Q (inferred sub sup)) →
  Forall Q k → infer_inner fuel k sub j = Some k' → Forall Q k'.
Proof.
  revert k j. induction fuel as [|f IH]; intros k j HQ Hk; simpl; [done |].
  destruct (k !! j) as [sup|] eqn:Hj; [| by intros [= <-]].
  intros H. eapply IH; [done | | done].
  apply infer_step_keeps; [| done]. intros Hs. apply HQ; [| done |].
  - eapply prefix_elem; [by eapply infer_inner_prefix |].
    eapply prefix_elem; [apply infer_step_prefix |]. by eapply list_elem_of_lookup_2.
  - eapply Forall_forall in Hk; [done |]. by eapply list_elem_of_lookup_2.
Qed.

Lemma infer_outer_keeps (Q : Sentence.t → Prop) fuel k i k' :
  (∀ sub sup, Sentence.cells sub ⊂ Sentence.cells sup → Q sub → Q sup → Q (inferred sub sup)) →
  Forall Q k → infer_outer fuel k i = Some k' → Forall Q k'.
Proof.
  intros HQ. revert k i. induction fuel as [|f IH]; intros k i Hk; simpl; [done |].
  destruct (k !! i) as [sub|] eqn:Hi; [| by intros [= <-]].
  destruct (infer_inner f k sub 0) as [k1|] eqn:Hin; [| done].
  intros H. eapply IH; [| done].
  eapply infer_inner_keeps; [| done | done]. intros sup _ Hs. apply HQ; [done |].
  eapply Forall_forall in Hk; [done |]. by eapply list_elem_of_lookup_2.
Qed.

(** The inner loop meets every sentence from index [j] on, those appended
    on the way included. *)
Lemma infer_inner_covers fuel k sub j k' :
  infer_inner fuel k sub j = Some k' →
  ∀ j' sup, (j ≤ j')%nat → k' !! j' = Some sup →
    Sentence.cells sub ⊂ Sentence.cells sup → inferred sub sup ∈ k'.
Proof.
  revert k j. induction fuel as [|f IH]; intros k j; simpl; [done |].
  destruct (k !! j) as [sup0|] eqn:Hj.
  - intros H j' sup Hle Hj' Hs.
    destruct (decide (j' = j)) as [-> | Hne].
    + assert (k' !! j = Some sup0) as Hj0.
      { eapply prefix_lookup_Some; [done |]. etrans; [apply infer_step_prefix |].
        by eapply infer_inner_prefix. }
      assert (sup = sup0) as -> by congruence.
      eapply prefix_elem; [by eapply infer_inner_prefix |]. by apply infer_step_elem.
    + eapply (IH _ _ H j'); [lia | done | done].
  - intros [= <-] j' sup Hle Hj' _. apply lookup_ge_None_1 in Hj.
    apply lookup_lt_Some in Hj'. lia.
Qed.

(** The loops meet every ordered pair of the sentences the list had when
    they started. *)
Lemma infer_outer_covers fuel k i k' :
  infer_outer fuel k i = Some k' →
  ∀ i' sub sup, (i ≤ i')%nat → k !! i' = Some sub → sup ∈ k →
    Sentence.cells sub ⊂ Sentence.cells sup → inferred sub sup ∈ k'.
Proof.
  revert k i. induction fuel as [|f IH]; intros k i; simpl; [done |].
  destruct (k !! i) as [sub0|] eqn:Hi.
  - destruct (infer_inner f k sub0 0) as [k1|] eqn:Hin; [| done].
    intros H i' sub sup Hle Hi' Hsup Hs.
    pose proof (infer_inner_prefix _ _ _ _ _ Hin) as Hp1.
    destruct (decide (i' = i)) as [-> | Hne].
    + assert (sub = sub0) as -> by congruence.
      eapply prefix_elem; [by eapply infer_outer_prefix |].
      apply (prefix_elem _ _ _ Hp1) in Hsup.
      apply list_elem_of_lookup_1 in Hsup as [j' Hj'].
      eapply (infer_inner_covers _ _ _ _ _ Hin j'); [lia | done | done].
    + eapply (IH _ _ H i'); [lia | | | done].
      * by eapply prefix_lookup_Some.
      * by eapply prefix_elem.
  - intros [= <-] i' sub sup Hle Hi' _ _. apply lookup_ge_None_1 in Hi.
    apply lookup_lt_Some in Hi'. lia.
Qed.

(** What the inner loop appends is a sentence of the rule, for [sub] and a
    sentence that stands before it in the list. *)
Lemma infer_inner_new fuel k sub j0 k' :
  infer_inner fuel k sub j0 = Some k' →
  ∀ x s, (length k ≤ x)%nat → k' !! x = Some s →
    ∃ j' sup, (j' < x)%nat ∧ k' !! j' = Some sup ∧
      Sentence.cells sub ⊂ Sentence.cells sup ∧ s = inferred sub sup.
Proof.
  revert k j0. induction fuel as [|f IH]; intros k j0; simpl; [done |].
  destruct (k !! j0) as [sup0|] eqn:Hj.
  - intros H x s Hx Hs.
    destruct (decide (length (infer_step k sub sup0) ≤ x)%nat) as [Hle | Hlt].
    { by eapply IH. }
    pose proof (infer_inner_prefix _ _ _ _ _ H) as Hp.
    unfold infer_step in Hp, Hlt.
    destruct (decide (Sentence.cells sub ⊂ Sentence.cells sup0)) as [Hs0 | ]; [| lia].
    simpl in Hp, Hlt.
    destruct (decide (inferred sub sup0 ∈ k)); [lia |].
    rewrite length_app in Hlt. simpl in Hlt.
    assert (x = length k) as -> by lia.
    assert (k' !! length k = Some (inferred sub sup0)) as Hx'.
    { eapply prefix_lookup_Some; [| done]. by rewrite list_lookup_middle. }
    exists j0, sup0. split; [by eapply lookup_lt_Some |].
    rewrite Hx' in Hs. injection Hs as <-.
    split; [| split; [done | done]].
    eapply prefix_lookup_Some; [| done]. by apply lookup_app_l_Some.
  - intros [= <-] x s Hx Hs. apply lookup_lt_Some in Hs. lia.
Qed.

Lemma inferred_twice sub sub' sup :
  inferred sub (inferred sub' sup) = inferred sub' (inferred sub sup).
Proof. apply sentence_eq; simpl; [set_solver | lia]. Qed.

(** One turn of the outer loop extends the closure by one position. *)
Lemma infer_inner_closed fuel k sub i k' :
  k !! i = Some sub → closed_upto i k →
  infer_inner fuel k sub 0 = Some k' → closed_upto (S i) k'.
Proof.
  intros Hi Hcl Hin. pose proof (infer_inner_prefix _ _ _ _ _ Hin) as Hp.
  intros a j. revert a. induction j as [j IHj] using lt_wf_ind.
  intros a sub_a sup Ha Hka Hkj Hs.
  destruct (decide (a = i)) as [-> | Hne].
  { assert (sub_a = sub) as ->.
    { pose proof (prefix_lookup_Some _ _ _ _ Hi Hp) as Hki.
      rewrite Hki in Hka. by injection Hka as <-. }
    eapply (infer_inner_covers _ _ _ _ _ Hin j); [lia | done | done]. }
  assert (a < length k)%nat as Hak by (apply lookup_lt_Some in Hi; lia).
  assert (k !! a = Some sub_a) as Hka0 by by rewrite (prefix_lookup_lt k k').
  destruct (decide (j < length k)%nat) as [Hjk | Hjk].
  { eapply prefix_elem; [done |]. eapply (Hcl a j); [lia | done | | done].
    by rewrite (prefix_lookup_lt k k'). }
  destruct (infer_inner_new _ _ _ _ _ Hin j sup) as (j' & sup' & Hj' & Hkj' & Hs' & ->);
    [lia | done |].
  simpl in Hs.
  assert (Sentence.cells sub_a ⊂ Sentence.cells sup') as Hs1 by set_solver.
  pose proof (IHj j' Hj' a sub_a sup' Ha Hka Hkj' Hs1) as HD.
  apply list_elem_of_lookup_1 in HD as [d Hd].
  rewrite inferred_twice.
  eapply (infer_inner_covers _ _ _ _ _ Hin d); [lia | done |].
  simpl. destruct Hs as [Hs2 Hs3], Hs' as [Hs4 _]. split; [set_solver |].
  intros Hback. apply Hs3. intros x Hx. apply elem_of_difference in Hx as [Hx1 Hx2].
  destruct (decide (x ∈ Sentence.cells sub_a)) as [| Hxa]; [done |].
  exfalso. apply Hx2, Hback. set_solver.
Qed.

Lemma closed_upto_all k : closed_upto (length k) k ↔ rule_closed k.
Proof.
  split.
  - intros H sub sup Hsub Hsup. apply list_elem_of_lookup_1 in Hsub as [a Ha], Hsup as [j Hj].
    eapply (H a j); [by eapply lookup_lt_Some | done | done].
  - intros H a j sub sup _ Ha Hj. apply H; by eapply list_elem_of_lookup_2.
Qed.

(** When the loops end, the list is closed under the rule. *)
Lemma infer_outer_closed fuel k i k' :
  closed_upto i k → infer_outer fuel k i = Some k' → rule_closed k'.
Proof.
  revert k i. induction fuel as [|f IH]; intros k i Hcl; simpl; [done |].
  destruct (k !! i) as [sub|] eqn:Hi.
  - destruct (infer_inner f k sub 0) as [k1|] eqn:Hin; [| done].
    apply IH. by eapply infer_inner_closed.
  - intros [= <-]. apply closed_upto_all. intros a j sub sup Ha.
    apply lookup_ge_None_1 in Hi. apply Hcl. lia.
Qed.

(** The loops append sentences of the rule only. *)
Lemma infer_outer_new fuel k i k' :
  infer_outer fuel k i = Some k' →
  ∀ s, s ∈ k' → s ∈ k ∨
    ∃ sub sup, sub ∈ k' ∧ sup ∈ k' ∧
      Sentence.cells sub ⊂ Sentence.cells sup ∧ s = inferred sub sup.
Proof.
  revert k i. induction fuel as [|f IH]; intros k i; simpl; [done |].
  destruct (k !! i) as [sub|] eqn:Hi; [| intros [= <-]; by left].
  destruct (infer_inner f k sub 0) as [k1|] eqn:Hin; [| done].
  intros Hout s Hs. pose proof (infer_outer_prefix _ _ _ _ Hout) as Hp.
  pose proof (infer_inner_prefix _ _ _ _ _ Hin) as Hp1.
  destruct (IH _ _ Hout s Hs) as [Hs1 | ?]; [| by right].
  apply list_elem_of_lookup_1 in Hs1 as [x Hx].
  destruct (decide (x < length k)%nat) as [Hxk | Hxk].
  { left. apply (list_elem_of_lookup_2 _ x). by rewrite (prefix_lookup_lt k k1). }
  right. destruct (infer_inner_new _ _ _ _ _ Hin x s) as (j' & sup & _ & Hj' & Hsub & ->);
    [lia | done |].
  exists sub, sup. split; [| split; [| done]].
  - eapply prefix_elem; [done |]. eapply prefix_elem; [done |].
    by eapply list_elem_of_lookup_2.
  - eapply prefix_elem; [done |]. by eapply list_elem_of_lookup_2.
Qed.

End SubsetRule.

(** ** add_knowledge in a game that answers truthfully *)

Section Truthful.

Import MinesweeperAI.

Implicit Types (ai : MinesweeperAI.t) (s : Sentence.t) (c cell : Cell) (m : gset Cell).

Lemma prune_elem k s : s ∈ prune k ↔ s ∈ k ∧ s ≠ Sentence.new ∅ 0.
Proof. unfold prune. rewrite list_elem_of_filter. tauto. Qed.

Lemma prune_keeps (Q : Sentence.t → Prop) k : Forall Q k → Forall Q (prune k).
Proof.
  rewrite !Forall_forall. intros Hk s Hs. apply prune_elem in Hs as [Hs _]. auto.
Qed.

Lemma observe_consistent m ai cell :
  consistent m ai → cell ∉ m →
  consistent m (observe ai cell (Z.of_nat (size (nearby ai cell ∩ m)))).
Proof.
  intros (Hm & Hs & Hk) Hc. unfold observe.
  set (ai1 := {| height := height ai; width := width ai;
                 moves_made := {[cell]} ∪ moves_made ai; mines := mines ai;
                 safes := safes ai; knowledge := knowledge ai |}).
  assert (consistent m (mark_safe ai1 cell)) as H2.
  { apply mark_safe_consistent; [done |]. by repeat split. }
  set (ai2 := mark_safe ai1 cell) in *.
  set (ai3 := set_knowledge ai2 _).
  assert (consistent m ai3) as H3.
  { destruct H2 as (Hm2 & Hs2 & Hk2). repeat split; [done | done |]. simpl.
    apply Forall_app. split; [done |]. apply Forall_singleton.
    by apply (new_sentence_holds m ai2 cell). }
  apply extract_pass_consistent in H3. destruct H3 as (Hm4 & Hs4 & Hk4).
  repeat split; [done | done |]. simpl. by apply prune_keeps.
Qed.

Lemma add_knowledge_consistent m fuel ai cell ai' :
  consistent m ai → cell ∉ m →
  add_knowledge fuel ai cell (Z.of_nat (size (nearby ai cell ∩ m))) = Some ai' →
  consistent m ai'.
Proof.
  intros Hai Hc. unfold add_knowledge.
  pose proof (observe_consistent m ai cell Hai Hc) as (Hm & Hs & Hk).
  destruct (infer_outer _ _ _) as [k|] eqn:Hk'; [| done]. intros [= <-].
  repeat split; [done | done |]. simpl.
  eapply infer_outer_keeps; [| done | done].
  intros sub sup [Hsub _]. by apply inferred_holds.
Qed.

(** The count of the board is the number of its mines among the in-bounds
    neighbours. *)
Lemma nearby_fold (g : Minesweeper.t) ai cell l acc :
  height ai = Minesweeper.height g → width ai = Minesweeper.width g → NoDup l →
  foldl (Minesweeper.nearby_step g cell) acc l =
  acc + Z.of_nat (size ((list_to_set (filter (λ c, c ≠ cell ∧ in_bounds ai c) l) : gset Cell)
                        ∩ Minesweeper.mines g)).
Proof.
  intros Hh Hw. revert acc. induction l as [|c l IH]; intros acc Hnd; simpl.
  - set_rw ((∅ : gset Cell) ∩ Minesweeper.mines g) as (∅ : gset Cell).
    rewrite size_empty. lia.
  - apply NoDup_cons in Hnd as [Hc Hnd]. rewrite IH by done. clear IH.
    set (Nb := list_to_set (filter (λ c, c ≠ cell ∧ in_bounds ai c) l) : gset Cell).
    assert (c ∉ Nb) as HcN.
    { unfold Nb. rewrite elem_of_list_to_set, list_elem_of_filter. tauto. }
    unfold Minesweeper.nearby_step, Minesweeper.board. rewrite filter_cons.
    assert (bool_decide (0 ≤ c.1 < Minesweeper.height g)
            && bool_decide (0 ≤ c.2 < Minesweeper.width g) = in_bounds ai c) as ->.
    { unfold in_bounds. by rewrite Hh, Hw. }
    destruct (decide (c = cell)) as [-> | Hne].
    { rewrite decide_False by tauto. done. }
    destruct (in_bounds ai c) eqn:Hb.
    2: { rewrite decide_False by (simpl; tauto). done. }
    destruct (decide (c ≠ cell ∧ true)) as [_ | Hn]; [| destruct Hn; by split].
    simpl. fold Nb. clearbody Nb.
    case_bool_decide as Hm.
    + set_rw (({[c]} ∪ Nb) ∩ Minesweeper.mines g) as ({[c]} ∪ Nb ∩ Minesweeper.mines g).
      rewrite (size_union (C:=gset Cell) {[c]}) by set_solver.
      rewrite size_singleton. lia.
    + set_rw (({[c]} ∪ Nb) ∩ Minesweeper.mines g) as (Nb ∩ Minesweeper.mines g). done.
Qed.

Lemma nearby_mines_count (g : Minesweeper.t) ai cell :
  height ai = Minesweeper.height g → width ai = Minesweeper.width g →
  Minesweeper.nearby_mines g cell = Z.of_nat (size (nearby ai cell ∩ Minesweeper.mines g)).
Proof.
  intros Hh Hw. unfold Minesweeper.nearby_mines, nearby.
  rewrite (nearby_fold g ai) by (done || apply window_NoDup). lia.
Qed.

(** No call changes the size of the board. *)
Lemma extract_one_dims ai s :
  height (extract_one ai s) = height ai ∧ width (extract_one ai s) = width ai.
Proof.
  unfold extract_one. repeat case_decide; [| | done].
  - by rewrite mark_mines_eq.
  - by rewrite mark_safes_eq.
Qed.

Lemma add_knowledge_dims fuel ai cell count ai' :
  add_knowledge fuel ai cell count = Some ai' →
  height ai' = height ai ∧ width ai' = width ai.
Proof.
  unfold add_knowledge. destruct (infer_outer _ _ _); [| done]. intros [= <-].
  unfold observe, extract_pass. simpl.
  apply (extract_loop_keeps (λ a, height a = height ai ∧ width a = width ai)); [| done].
  intros a s [Hh Hw] _. destruct (extract_one_dims a s). split; congruence.
Qed.

Lemma truthful_dims (g : Minesweeper.t) ai :
  truthful g ai → height ai = Minesweeper.height g ∧ width ai = Minesweeper.width g.
Proof.
  induction 1 as [| ai fuel cell ai' _ IH Hc Hadd | ai cell _ IH Hc | ai cell _ IH Hc];
    try done.
  apply add_knowledge_dims in Hadd as [-> ->]. done.
Qed.

Lemma truthful_consistent (g : Minesweeper.t) ai :
  truthful g ai → consistent (Minesweeper.mines g) ai.
Proof.
  induction 1 as [| ai fuel cell ai' Hai IH Hc Hadd | ai cell _ IH Hc | ai cell _ IH Hc].
  - repeat split; simpl; [set_solver | set_solver | done].
  - apply truthful_dims in Hai as [Hh Hw].
    rewrite (nearby_mines_count g ai) in Hadd by done.
    by eapply add_knowledge_consistent.
  - by apply mark_mine_consistent.
  - by apply mark_safe_consistent.
Qed.

End Truthful.

(** ** Marks that never cross *)

Section Careful.

Import MinesweeperAI.

Implicit Types (ai : MinesweeperAI.t) (s : Sentence.t) (c cell : Cell).

Lemma known_mines_sub s : Sentence.known_mines s ⊆ Sentence.cells s.
Proof. destruct (known_mines_case s) as [[-> _] | [-> _]]; set_solver. Qed.

Lemma known_safes_sub s : Sentence.known_safes s ⊆ Sentence.cells s.
Proof. destruct (known_safes_case s) as [[-> _] | [-> _]]; set_solver. Qed.

Lemma mark_mine_clean ai c : clean ai → c ∉ safes ai → clean (mark_mine ai c).
Proof.
  intros [Hd Hk] Hc. split; simpl; [set_solver |].
  apply Forall_fmap. eapply Forall_impl; [done |]. intros s Hs. simpl.
  rewrite mark_mine_cells. set_solver.
Qed.

Lemma mark_safe_clean ai c : clean ai → c ∉ mines ai → clean (mark_safe ai c).
Proof.
  intros [Hd Hk] Hc. split; simpl; [set_solver |].
  apply Forall_fmap. eapply Forall_impl; [done |]. intros s Hs. simpl.
  rewrite mark_safe_cells. set_solver.
Qed.

Lemma extract_one_clean ai s : clean ai → s ∈ knowledge ai → clean (extract_one ai s).
Proof.
  intros [Hd Hk] Hs. unfold extract_one.
  pose proof (known_mines_sub s). pose proof (known_safes_sub s).
  assert (Sentence.cells s ## mines ai ∪ safes ai) by by eapply Forall_forall in Hk.
  repeat case_decide; [rewrite mark_mines_eq | rewrite mark_safes_eq | done];
    (split; simpl; [set_solver |]);
    apply Forall_fmap; (eapply Forall_impl; [done |]); intros s' Hs'; simpl; set_solver.
Qed.

Lemma observe_clean ai cell count :
  clean ai → cell ∉ mines ai → clean (observe ai cell count).
Proof.
  intros [Hd Hk] Hc. unfold observe.
  set (ai1 := {| height := height ai; width := width ai;
                 moves_made := {[cell]} ∪ moves_made ai; mines := mines ai;
                 safes := safes ai; knowledge := knowledge ai |}).
  assert (clean (mark_safe ai1 cell)) as H2 by by apply mark_safe_clean.
  set (ai2 := mark_safe ai1 cell) in *.
  set (ai3 := set_knowledge ai2 _).
  assert (clean ai3) as H3.
  { destruct H2 as [Hd2 Hk2]. split; [done |]. simpl.
    apply Forall_app. split; [done |]. apply Forall_singleton.
    rewrite new_sentence_cells. set_solver. }
  assert (clean (extract_pass ai3)) as [Hd4 Hk4].
  { unfold extract_pass. apply (extract_loop_keeps clean); [| done].
    apply extract_one_clean. }
  split; [done |]. simpl. by apply prune_keeps.
Qed.

Lemma add_knowledge_marks fuel ai cell count ai' :
  add_knowledge fuel ai cell count = Some ai' →
  mines ai' = mines (observe ai cell count) ∧ safes ai' = safes (observe ai cell count) ∧
  moves_made ai' = moves_made (observe ai cell count).
Proof.
  unfold add_knowledge. destruct (infer_outer _ _ _); [| done]. by intros [= <-].
Qed.

Lemma add_knowledge_clean fuel ai cell count ai' :
  clean ai → cell ∉ mines ai → add_knowledge fuel ai cell count = Some ai' → clean ai'.
Proof.
  intros Hai Hc. unfold add_knowledge.
  pose proof (observe_clean ai cell count Hai Hc) as [Hd Hk].
  destruct (infer_outer _ _ _) as [k|] eqn:Hk'; [| done]. intros [= <-].
  split; [done |]. simpl.
  eapply infer_outer_keeps; [| done | done].
  intros sub sup _ _. simpl. set_solver.
Qed.

Lemma careful_clean ai : careful ai → clean ai.
Proof.
  induction 1 as [h w | ai fuel cell count ai' _ IH Hc Hadd | ai cell _ IH Hc | ai cell _ IH Hc].
  - split; simpl; [set_solver | done].
  - by eapply add_knowledge_clean.
  - by apply mark_mine_clean.
  - by apply mark_safe_clean.
Qed.

End Careful.

(** ** The pass of step 4, turn by turn *)

Section ExtractPass.

Import MinesweeperAI.

Implicit Types (ai : MinesweeperAI.t) (s : Sentence.t) (i n : nat).


Lemma extract_one_grows ai s :
  mines ai ⊆ mines (extract_one ai s) ∧ safes ai ⊆ safes (extract_one ai s).
Proof.
  unfold extract_one. repeat case_decide; [| | done].
  - rewrite mark_mines_eq. simpl. set_solver.
  - rewrite mark_safes_eq. simpl. set_solver.
Qed.


Lemma extract_turn_past ai i : (length (knowledge ai) ≤ i)%nat → extract_turn ai i = ai.
Proof. intros Hi. unfold extract_turn. by rewrite lookup_ge_None_2. Qed.

Lemma extract_turns_past n ai i :
  (length (knowledge ai) ≤ i)%nat → foldl extract_turn ai (seq i n) = ai.
Proof.
  revert i. induction n as [|n IH]; intros i Hi; simpl; [done |].
  rewrite extract_turn_past by done. apply IH. lia.
Qed.


Lemma extract_loop_turns n i ai : extract_loop n i ai = foldl extract_turn ai (seq i n).
Proof.
  revert i ai. induction n as [|n IH]; intros i ai; simpl; [done |].
  unfold extract_turn at 2. destruct (knowledge ai !! i) as [s|] eqn:Hi; [apply IH |].
  symmetry. apply extract_turns_past. apply lookup_ge_None_1 in Hi. lia.
Qed.


End ExtractPass.

(** ** The candidates of make_random_move *)

Section RandomMoveFacts.

Import MinesweeperAI.

Implicit Types (ai : MinesweeperAI.t) (c : Cell).

Lemma grid_elem ai c : c ∈ grid ai ↔ 0 ≤ c.1 < height ai ∧ 0 ≤ c.2 < width ai.
Proof.
  unfold grid. rewrite list_elem_of_bind. split.
  - intros (i & Hc & Hi). apply list_elem_of_bind in Hc as (j & Hc & Hj).
    apply list_elem_of_singleton in Hc as ->. simpl.
    apply elem_of_seqZ in Hi, Hj. lia.
  - intros [Hi Hj]. exists c.1. split; [| apply elem_of_seqZ; lia].
    apply list_elem_of_bind. exists c.2. split; [| apply elem_of_seqZ; lia].
    apply list_elem_of_singleton. by destruct c.
Qed.

Lemma eventual_adds_elem ai c :
  c ∈ eventual_adds ai ↔ c ∈ grid ai ∧ (c ∉ moves_made ai) ∧ (c ∉ mines ai).
Proof. unfold eventual_adds. rewrite list_elem_of_filter. tauto. Qed.

Lemma eventualMoves_candidates ai : eventualMoves ai = candidates ai.
Proof.
  apply set_eq. intros c. unfold eventualMoves, candidates.
  rewrite elem_of_list_to_set, eventual_adds_elem, !elem_of_difference, elem_of_list_to_set.
  tauto.
Qed.

Lemma eventualMoves_empty ai : size (eventualMoves ai) = 0%nat ↔ eventual_adds ai = [].
Proof.
  rewrite size_empty_iff. unfold eventualMoves. split.
  - intros He. apply elem_of_nil_inv. intros c Hc.
    assert (c ∈ (list_to_set (eventual_adds ai) : gset Cell)) as Hc'
      by by apply elem_of_list_to_set.
    rewrite He in Hc'. set_solver.
  - by intros ->.
Qed.

End RandomMoveFacts.

(** ** The loops of the subset rule end on a satisfiable list *)

Section LoopsEnd.

Import MinesweeperAI.

Implicit Types (s sub sup : Sentence.t) (k : list Sentence.t).

Lemma missing_snoc C k c : (missing C (k ++ [c]) ≤ missing C k)%nat.
Proof.
  unfold missing. induction C as [|x C IH]; simpl; [done |]. rewrite !filter_cons.
  destruct (decide (x ∉ k ++ [c])) as [Hx | Hx], (decide (x ∉ k)) as [Hk | Hk];
    simpl; try lia.
  destruct Hk. intros Hin. apply Hx, elem_of_app. by left.
Qed.

Lemma missing_snoc_lt C k c :
  c ∈ C → c ∉ k → (missing C (k ++ [c]) < missing C k)%nat.
Proof.
  intros Hc Hk. unfold missing. induction C as [|x C IH]; [by apply elem_of_nil in Hc |].
  pose proof (missing_snoc C k c) as Hle. unfold missing in Hle.
  rewrite !filter_cons.
  apply elem_of_cons in Hc as [<- | Hc].
  - rewrite decide_False, decide_True by (done || set_solver). simpl. lia.
  - specialize (IH Hc).
    destruct (decide (x ∉ k ++ [c])) as [Hx | Hx], (decide (x ∉ k)) as [Hxk | Hxk];
      simpl; try lia.
    destruct Hxk. intros Hin. apply Hx, elem_of_app. by left.
Qed.

Section Stock.

Variable C : list Sentence.t.
Variable Q : Sentence.t → Prop.
Hypothesis Q_stock : ∀ s, Q s → s ∈ C.
Hypothesis Q_rule :
  ∀ sub sup, Q sub → Q sup → Sentence.cells sub ⊂ Sentence.cells sup → Q (inferred sub sup).

Lemma infer_step_weight k sub sup :
  Q sub → Q sup →
  (length (infer_step k sub sup) + missing C (infer_step k sub sup)
   ≤ length k + missing C k)%nat.
Proof.
  intros Hsub Hsup. unfold infer_step. case_decide as Hs; [| done]. simpl.
  case_decide as Hin; [done |]. rewrite length_app. simpl.
  pose proof (missing_snoc_lt C k (inferred sub sup)) as Hlt.
  specialize (Hlt (Q_stock _ (Q_rule _ _ Hsub Hsup Hs)) Hin). lia.
Qed.

Lemma infer_inner_returns fuel k sub j :
  Q sub → Forall Q k → (j ≤ length k)%nat → (length k + missing C k < j + fuel)%nat →
  ∃ k', infer_inner fuel k sub j = Some k' ∧ Forall Q k' ∧
        (length k' + missing C k' ≤ length k + missing C k)%nat.
Proof.
  intros Hsub. revert k j. induction fuel as [|f IH]; intros k j Hk Hj Hf; [lia |].
  simpl. destruct (k !! j) as [sup|] eqn:Hkj; [| by exists k].
  assert (Q sup) as Hsup.
  { eapply Forall_forall in Hk; [done |]. by eapply list_elem_of_lookup_2. }
  pose proof (infer_step_weight k sub sup Hsub Hsup) as Hw.
  pose proof (prefix_length _ _ (infer_step_prefix k sub sup)) as Hlen.
  apply lookup_lt_Some in Hkj.
  destruct (IH (infer_step k sub sup) (S j)) as (k' & Hk' & HQ & Hw').
  - apply infer_step_keeps; [| done]. intros Hs. by apply Q_rule.
  - lia.
  - lia.
  - exists k'. split; [done |]. split; [done | lia].
Qed.

Lemma infer_outer_returns fuel k i :
  Forall Q k →
  (length k + missing C k + 2 ≤ fuel)%nat →
  (2 * (length k + missing C k) + 3 ≤ fuel + i)%nat →
  ∃ k', infer_outer fuel k i = Some k'.
Proof.
  revert k i. induction fuel as [|f IH]; intros k i Hk Hf Hfi; [lia |].
  simpl. destruct (k !! i) as [sub|] eqn:Hi; [| by exists k].
  assert (Q sub) as Hsub.
  { eapply Forall_forall in Hk; [done |]. by eapply list_elem_of_lookup_2. }
  apply lookup_lt_Some in Hi.
  destruct (infer_inner_returns f k sub 0 Hsub Hk) as (k1 & -> & HQ & Hw); [lia | lia |].
  apply IH; [done | lia | lia].
Qed.

End Stock.

Lemma subsets_elem (l : list Cell) (X : gset Cell) : X ⊆ list_to_set l → X ∈ subsets l.
Proof.
  revert X. induction l as [|x l IH]; intros X HX; simpl.
  - apply list_elem_of_singleton. set_solver.
  - apply elem_of_app. destruct (decide (x ∈ X)) as [Hx | Hx].
    + right. apply list_elem_of_fmap. exists (X ∖ {[x]}). split.
      * apply set_eq. intros y. destruct (decide (y = x)); set_solver.
      * apply IH. set_solver.
    + left. apply IH. set_solver.
Qed.

Lemma stock_elem (m U : gset Cell) s :
  Sentence.cells s ⊆ U → holds m s → s ∈ stock m U.
Proof.
  intros HU Hs. apply list_elem_of_fmap. exists (Sentence.cells s). split.
  - by apply sentence_eq.
  - apply subsets_elem. by rewrite list_to_set_elements_L.
Qed.

(** On a list whose sentences all hold in one layout of mines the loops
    end: some fuel is enough. *)
Lemma infer_outer_ends (m : gset Cell) k :
  Forall (holds m) k → ∃ fuel k', infer_outer fuel k 0 = Some k'.
Proof.
  intros Hk.
  set (U := ⋃ (Sentence.cells <$> k) : gset Cell).
  set (Q := λ s, Sentence.cells s ⊆ U ∧ holds m s).
  set (C := stock m U).
  exists (2 * (length k + missing C k) + 3)%nat.
  apply (infer_outer_returns C Q); [| | | lia | lia].
  - intros s [HU Hs]. by apply stock_elem.
  - intros sub sup [HU1 H1] [HU2 H2] [Hs _]. split; [simpl; set_solver |].
    by apply inferred_holds.
  - apply Forall_forall. intros s Hs. split; [| by eapply Forall_forall in Hk].
    unfold U. intros x Hx. apply elem_of_union_list. exists (Sentence.cells s).
    split; [by apply list_elem_of_fmap_2 | done].
Qed.

Lemma add_knowledge_ends (m : gset Cell) ai cell count :
  Forall (holds m) (knowledge (observe ai cell count)) →
  ∃ fuel ai', add_knowledge fuel ai cell count = Some ai'.
Proof.
  intros Hk. destruct (infer_outer_ends m _ Hk) as (fuel & k' & Hk').
  exists fuel. unfold add_knowledge. rewrite Hk'. by eexists.
Qed.

(** A game that agrees with its board can always take the next
    observation: the call returns. *)
Lemma truthful_add_returns (g : Minesweeper.t) ai cell :
  truthful g ai → cell ∉ Minesweeper.mines g →
  ∃ fuel ai', add_knowledge fuel ai cell (Minesweeper.nearby_mines g cell) = Some ai'.
Proof.
  intros Hai Hc. pose proof (truthful_dims g ai Hai) as [Hh Hw].
  apply (add_knowledge_ends (Minesweeper.mines g)).
  rewrite (nearby_mines_count g ai) by done.
  by apply observe_consistent; [apply truthful_consistent |].
Qed.

End LoopsEnd.

(** ** Fuel *)

Section Fuel.

Import MinesweeperAI.

Implicit Types (k : list Sentence.t) (sub : Sentence.t) (fuel : nat).

(** A result reached with some fuel is the result with any more of it:
    when the loops end, what they return does not depend on the bound. *)
Lemma infer_inner_more fuel fuel' k sub j k' :
  (fuel ≤ fuel')%nat → infer_inner fuel k sub j = Some k' →
  infer_inner fuel' k sub j = Some k'.
Proof.
  revert fuel' k j. induction fuel as [|f IH]; intros fuel' k j Hle; simpl; [done |].
  destruct fuel' as [|f']; [lia |]. simpl.
  destruct (k !! j); [| done]. apply IH. lia.
Qed.

Lemma infer_outer_more fuel fuel' k i k' :
  (fuel ≤ fuel')%nat → infer_outer fuel k i = Some k' →
  infer_outer fuel' k i = Some k'.
Proof.
  revert fuel' k i. induction fuel as [|f IH]; intros fuel' k i Hle; simpl; [done |].
  destruct fuel' as [|f']; [lia |]. simpl.
  destruct (k !! i) as [sub|]; [| done].
  destruct (infer_inner f k sub 0) as [k1|] eqn:Hin; [| done].
  rewrite (infer_inner_more f f' k sub 0 k1) by (done || lia). apply IH. lia.
Qed.

Lemma add_knowledge_more fuel fuel' ai cell count ai' :
  (fuel ≤ fuel')%nat → add_knowledge fuel ai cell count = Some ai' →
  add_knowledge fuel' ai cell count = Some ai'.
Proof.
  intros Hle. unfold add_knowledge.
  destruct (infer_outer fuel _ 0) as [k|] eqn:Hk; [| done].
  by rewrite (infer_outer_more fuel fuel' _ 0 k).
Qed.

End Fuel.



(** ** The board of rows *)

Section BoardFacts.

Implicit Types (g : Board.t) (m : gset Cell) (b : list (list bool)) (c d : Cell).

Lemma getitem_nat {A : Type} (l : list A) (i : Z) :
  0 ≤ i → Board.getitem l i = l !! Z.to_nat i.
Proof. intros Hi. unfold Board.getitem. by rewrite bool_decide_eq_true_2. Qed.

Lemma getitem_wrap {A : Type} (l : list A) (i : Z) :
  - Z.of_nat (length l) ≤ i < 0 →
  Board.getitem l i = Board.getitem l (i + Z.of_nat (length l)).
Proof.
  intros Hi. unfold Board.getitem.
  rewrite (bool_decide_eq_false_2 (0 ≤ i)) by lia.
  rewrite !bool_decide_eq_true_2 by lia. f_equal. lia.
Qed.

Lemma getitem_off {A : Type} (l : list A) (i : Z) :
  i < - Z.of_nat (length l) ∨ Z.of_nat (length l) ≤ i → Board.getitem l i = None.
Proof.
  intros Hi. unfold Board.getitem. case_bool_decide.
  - apply lookup_ge_None_2. lia.
  - rewrite bool_decide_eq_false_2 by lia. done.
Qed.

Lemma setitem_nat {A : Type} (l : list A) (i : Z) (x : A) :
  0 ≤ i < Z.of_nat (length l) → Board.setitem l i x = Some (<[Z.to_nat i := x]> l).
Proof. intros Hi. unfold Board.setitem. by rewrite bool_decide_eq_true_2. Qed.

Lemma agrees_empty h w : agrees h w ∅ (Board.empty_board h w).
Proof.
  unfold agrees, Board.empty_board. split; [set_solver |].
  split; [apply length_replicate |]. split.
  - apply Forall_replicate, length_replicate.
  - intros i j Hi Hj. exists (replicate (Z.to_nat w) false). split.
    + apply lookup_replicate_2. lia.
    + rewrite lookup_replicate_2 by lia. by rewrite bool_decide_eq_false_2 by set_solver.
Qed.

Lemma place_step_agrees h w m b d :
  agrees h w m b → 0 ≤ d.1 < h → 0 ≤ d.2 < w →
  ∃ mb', Board.place_step (m, b) d = Some mb' ∧ agrees h w mb'.1 mb'.2.
Proof.
  intros Hag Hi Hj. pose proof Hag as (Hm & Hlen & Hrows & Hb).
  destruct d as [i j]. simpl in Hi, Hj.
  destruct (Hb i j Hi Hj) as (row & Hrow & Hcell).
  assert (length row = Z.to_nat w) as Hrl.
  { eapply Forall_forall in Hrows; [done |]. by eapply list_elem_of_lookup_2. }
  unfold Board.place_step. simpl.
  rewrite getitem_nat, Hrow by lia. rewrite getitem_nat, Hcell by lia.
  case_bool_decide as Hin.
  { eexists. split; [done |]. done. }
  rewrite setitem_nat by lia. rewrite setitem_nat by lia.
  eexists. split; [done |]. simpl. split; [| split; [| split]].
  - intros c Hc. apply elem_of_union in Hc as [Hc | Hc]; [| by apply Hm].
    apply elem_of_singleton in Hc as ->. done.
  - by rewrite length_insert.
  - apply Forall_insert; [done |]. by rewrite length_insert.
  - intros i' j' Hi' Hj'. destruct (decide (i' = i)) as [-> | Hne].
    + exists (<[Z.to_nat j := true]> row). split; [apply list_lookup_insert_eq; lia |].
      destruct (decide (j' = j)) as [-> | Hnj].
      * rewrite list_lookup_insert_eq by lia. by rewrite bool_decide_eq_true_2 by set_solver.
      * rewrite list_lookup_insert_ne by lia.
        destruct (Hb i j' Hi' Hj') as (row' & Hrow' & Hcell').
        assert (row' = row) as -> by congruence. rewrite Hcell'. f_equal.
        apply bool_decide_ext. rewrite elem_of_union, elem_of_singleton.
        split; [by right |]. intros [[=] | ?]; done.
    + destruct (Hb i' j' Hi' Hj') as (row' & Hrow' & Hcell').
      exists row'. split; [by rewrite list_lookup_insert_ne by lia |].
      rewrite Hcell'. f_equal.
      apply bool_decide_ext. rewrite elem_of_union, elem_of_singleton.
      split; [by right |]. intros [[=] | ?]; done.
Qed.

(** What the loop that places the mines leaves when it ends, and that it
    raises nothing on a field with cells. *)
Lemma place_agrees h w n draws m b :
  agrees h w m b → drawn h w draws →
  match Board.place h w n draws (m, b) with
  | Board.Returns mb => agrees h w mb.1 mb.2 ∧ Z.of_nat (size mb.1) = n
  | Board.Raises => h ≤ 0 ∨ w ≤ 0
  | Board.Pending => True
  end.
Proof.
  revert m b. induction draws as [|d ds IH]; intros m b Hag Hd; simpl.
  - case_bool_decide; [done |].
    destruct (bool_decide (h ≤ 0) || bool_decide (w ≤ 0)) eqn:Hhw; [| done].
    apply orb_true_iff in Hhw as [H' | H']; apply bool_decide_eq_true in H'; auto.
  - case_bool_decide; [done |].
    destruct (bool_decide (h ≤ 0) || bool_decide (w ≤ 0)) eqn:Hhw.
    { apply orb_true_iff in Hhw as [H' | H']; apply bool_decide_eq_true in H'; auto. }
    apply Forall_cons in Hd as [[Hi Hj] Hds].
    destruct (place_step_agrees h w m b d Hag Hi Hj) as ([m' b'] & -> & Hag').
    by apply IH.
Qed.

(** With fresh draws every turn places a mine. *)
Lemma place_fresh h w n draws m b :
  agrees h w m b → drawn h w draws → NoDup draws → (∀ d, d ∈ draws → d ∉ m) →
  n = Z.of_nat (size m + length draws) →
  ∃ b', Board.place h w n draws (m, b) = Board.Returns (list_to_set draws ∪ m, b').
Proof.
  revert m b. induction draws as [|d ds IH]; intros m b Hag Hd Hnd Hfresh Hn; simpl.
  - rewrite bool_decide_eq_true_2 by (simpl in Hn; lia).
    exists b. do 2 f_equal. set_solver.
  - rewrite bool_decide_eq_false_2 by (simpl in Hn; lia).
    apply Forall_cons in Hd as [[Hi Hj] Hds]. apply NoDup_cons in Hnd as [Hd Hnd].
    rewrite !(bool_decide_eq_false_2 (_ ≤ 0)) by lia. simpl.
    pose proof Hag as (Hm & Hlen & Hrows & Hb).
    destruct d as [i j]. simpl in Hi, Hj.
    destruct (Hb i j Hi Hj) as (row & Hrow & Hcell).
    assert (length row = Z.to_nat w) as Hrl.
    { eapply Forall_forall in Hrows; [done |]. by eapply list_elem_of_lookup_2. }
    assert ((i, j) ∉ m) as Hij by (apply Hfresh, elem_of_cons; by left).
    rewrite bool_decide_eq_false_2 in Hcell by done.
    destruct (place_step_agrees h w m b (i, j) Hag Hi Hj) as ([m' b'] & Hstep & Hag').
    rewrite Hstep. revert Hstep. unfold Board.place_step. simpl.
    rewrite getitem_nat, Hrow by lia. rewrite getitem_nat, Hcell by lia.
    rewrite setitem_nat by lia. rewrite setitem_nat by lia. intros [= <- <-].
    destruct (IH ({[(i, j)]} ∪ m) (<[Z.to_nat i:=<[Z.to_nat j:=true]> row]> b))
      as [b2 Hb2]; [done | done | done | | |].
    + intros d Hds' Hin. apply elem_of_union in Hin as [Hin | Hin].
      * apply elem_of_singleton in Hin as ->. done.
      * eapply Hfresh; [| done]. apply elem_of_cons. by right.
    + rewrite size_union by set_solver. rewrite size_singleton. simpl in Hn. lia.
    + exists b2. rewrite Hb2. do 2 f_equal. set_solver.
Qed.

Lemma size_list_to_set_le (l : list Cell) :
  (size (list_to_set l : gset Cell) ≤ length l)%nat.
Proof.
  induction l as [|c l IH].
  { rewrite list_to_set_nil, size_empty. done. }
  rewrite list_to_set_cons, size_union_alt, size_singleton. simpl.
  pose proof (subseteq_size (list_to_set l ∖ {[c]}) (list_to_set l : gset Cell)) as Hle.
  assert (list_to_set l ∖ {[c]} ⊆ (list_to_set l : gset Cell)) as Hsub by set_solver.
  apply Hle in Hsub. lia.
Qed.

Lemma grid_length ai :
  length (MinesweeperAI.grid ai)
  = (Z.to_nat (MinesweeperAI.height ai) * Z.to_nat (MinesweeperAI.width ai))%nat.
Proof.
  unfold MinesweeperAI.grid.
  assert (∀ i : Z, length (seqZ 0 (MinesweeperAI.width ai) ≫= λ j, [(i, j)])
                 = Z.to_nat (MinesweeperAI.width ai)) as Hrow.
  { intros i. rewrite <- (length_seqZ 0 (MinesweeperAI.width ai)).
    induction (seqZ 0 (MinesweeperAI.width ai)) as [|j l IH]; [done |].
    rewrite bind_cons. simpl. by rewrite IH. }
  rewrite <- (length_seqZ 0 (MinesweeperAI.height ai)).
  induction (seqZ 0 (MinesweeperAI.height ai)) as [|i l IH]; [done |].
  rewrite bind_cons, length_app, IH, Hrow. simpl. lia.
Qed.

Lemma grid_NoDup ai : NoDup (MinesweeperAI.grid ai).
Proof.
  unfold MinesweeperAI.grid. apply NoDup_bind; [| | apply NoDup_seqZ].
  - intros i1 i2 c _ _ H1 H2.
    apply list_elem_of_bind in H1 as (j1 & H1 & _), H2 as (j2 & H2 & _).
    apply list_elem_of_singleton in H1, H2. congruence.
  - intros i _. apply NoDup_bind; [| | apply NoDup_seqZ].
    + intros j1 j2 c _ _ H1 H2. apply list_elem_of_singleton in H1, H2. congruence.
    + intros j _. apply NoDup_singleton.
Qed.

(** No more cells on the field than rows times columns. *)
Lemma on_field_size h w m :
  (∀ c, c ∈ m → 0 ≤ c.1 < h ∧ 0 ≤ c.2 < w) →
  Z.of_nat (size m) ≤ Z.max 0 h * Z.max 0 w.
Proof.
  intros Hm.
  assert (m ⊆ list_to_set (MinesweeperAI.grid (MinesweeperAI.init h w))) as Hsub.
  { intros c Hc. apply elem_of_list_to_set, grid_elem. by apply Hm. }
  apply subseteq_size in Hsub.
  pose proof (size_list_to_set_le (MinesweeperAI.grid (MinesweeperAI.init h w))) as Hle.
  rewrite grid_length in Hle. simpl in Hle.
  assert (Z.of_nat (Z.to_nat h * Z.to_nat w) = Z.max 0 h * Z.max 0 w) as <-; [| lia].
  rewrite Nat2Z.inj_mul. f_equal; lia.
Qed.

Lemma is_mine_on_field g c :
  laid g → 0 ≤ c.1 < Board.height g → 0 ≤ c.2 < Board.width g →
  Board.is_mine g c = Some (bool_decide (c ∈ Board.mines g)).
Proof.
  intros (_ & _ & _ & Hb) Hi Hj. destruct c as [i j]. simpl in Hi, Hj.
  destruct (Hb i j Hi Hj) as (row & Hrow & Hcell).
  unfold Board.is_mine. simpl. rewrite getitem_nat, Hrow by lia.
  by rewrite getitem_nat by lia.
Qed.

Lemma board_nearby_fold g cell l acc :
  laid g →
  foldl (Board.nearby_step g cell) (Some acc) l
  = Some (foldl (Minesweeper.nearby_step (layout g) cell) acc l).
Proof.
  intros Hg. revert acc. induction l as [|c l IH]; intros acc; simpl; [done |].
  rewrite <- IH. f_equal. unfold Minesweeper.nearby_step, Minesweeper.board. simpl.
  destruct (decide (c = cell)); [done |].
  destruct (bool_decide (0 ≤ c.1 < Board.height g)) eqn:Hi; [| done].
  destruct (bool_decide (0 ≤ c.2 < Board.width g)) eqn:Hj; [| done]. simpl.
  apply bool_decide_eq_true in Hi, Hj. by rewrite is_mine_on_field.
Qed.

End BoardFacts.

(** ** The cells around a cell *)

Section Around.

Import MinesweeperAI.

Implicit Types (ai : MinesweeperAI.t) (c cell : Cell).

Lemma window_elem cell c :
  c ∈ window cell ↔
  cell.1 - 1 ≤ c.1 ≤ cell.1 + 1 ∧ cell.2 - 1 ≤ c.2 ≤ cell.2 + 1.
Proof.
  destruct cell as [a b], c as [x y]. unfold window, range3. simpl.
  rewrite !elem_of_cons, elem_of_nil. split.
  - intros H. repeat (destruct H as [[= -> ->] | H]; [lia |]). done.
  - intros [Hx Hy].
    assert (x = a - 1 ∨ x = a ∨ x = a + 1) as Hx' by lia.
    assert (y = b - 1 ∨ y = b ∨ y = b + 1) as Hy' by lia.
    destruct Hx' as [-> | [-> | ->]], Hy' as [-> | [-> | ->]]; tauto.
Qed.

Lemma in_bounds_spec ai c :
  in_bounds ai c = true ↔ 0 ≤ c.1 < height ai ∧ 0 ≤ c.2 < width ai.
Proof.
  unfold in_bounds. rewrite andb_true_iff, !bool_decide_eq_true. done.
Qed.

Lemma nearby_elem ai cell c :
  c ∈ nearby ai cell ↔
  c ≠ cell ∧ (cell.1 - 1 ≤ c.1 ≤ cell.1 + 1 ∧ cell.2 - 1 ≤ c.2 ≤ cell.2 + 1) ∧
  0 ≤ c.1 < height ai ∧ 0 ≤ c.2 < width ai.
Proof.
  unfold nearby. rewrite elem_of_list_to_set, list_elem_of_filter, window_elem.
  rewrite <- in_bounds_spec. split.
  - intros [[Hne Hb] Hw]. split; [done |]. split; [done |]. by apply Is_true_true.
  - intros (Hne & Hw & Hb). split; [| done]. split; [done |]. by apply Is_true_true.
Qed.

Lemma nearby_size ai cell : (size (nearby ai cell) ≤ 8)%nat.
Proof.
  assert (nearby ai cell ⊆ list_to_set (window cell) ∖ {[cell]}) as Hsub.
  { intros c Hc. apply nearby_elem in Hc as (Hne & Hw & _).
    apply elem_of_difference. split; [| set_solver].
    by apply elem_of_list_to_set, window_elem. }
  apply subseteq_size in Hsub.
  rewrite size_difference in Hsub.
  - rewrite size_singleton, size_list_to_set in Hsub by apply window_NoDup.
    destruct cell. simpl in Hsub. lia.
  - intros c Hc. apply elem_of_singleton in Hc as ->.
    apply elem_of_list_to_set, window_elem. lia.
Qed.

End Around.

(** ** What every state of the knowledge base keeps *)

Section Reach.

Import MinesweeperAI.

Implicit Types (ai : MinesweeperAI.t) (s : Sentence.t) (c cell : Cell).

Lemma mark_mine_tidy ai c : tidy ai → tidy (mark_mine ai c).
Proof.
  intros [Hp Hk]. split; [done |]. simpl.
  apply Forall_fmap. eapply Forall_impl; [done |]. intros s [Hd Hb]. simpl.
  rewrite mark_mine_cells. split; [set_solver |]. intros x Hx. apply Hb. set_solver.
Qed.

Lemma mark_safe_tidy ai c : tidy ai → tidy (mark_safe ai c).
Proof.
  intros [Hp Hk]. split; [simpl; set_solver |]. simpl.
  apply Forall_fmap. eapply Forall_impl; [done |]. intros s [Hd Hb]. simpl.
  rewrite mark_safe_cells. split; [set_solver |]. intros x Hx. apply Hb. set_solver.
Qed.

Lemma extract_one_tidy ai s : tidy ai → s ∈ knowledge ai → tidy (extract_one ai s).
Proof.
  intros [Hp Hk] _. unfold extract_one.
  repeat case_decide; [rewrite mark_mines_eq | rewrite mark_safes_eq | done];
    (split; simpl; [set_solver |]);
    apply Forall_fmap; (eapply Forall_impl; [done |]); intros s' [Hd Hb]; simpl;
    (split; [set_solver |]); intros x Hx; apply Hb; set_solver.
Qed.

Lemma observe_tidy ai cell count : tidy ai → tidy (observe ai cell count).
Proof.
  intros [Hp Hk]. unfold observe.
  set (ai1 := {| height := height ai; width := width ai;
                 moves_made := {[cell]} ∪ moves_made ai; mines := mines ai;
                 safes := safes ai; knowledge := knowledge ai |}).
  assert (tidy (mark_safe ai1 cell)) as H2.
  { split; [simpl; set_solver |]. simpl.
    apply Forall_fmap. eapply Forall_impl; [done |]. intros s [Hd Hb]. simpl.
    rewrite mark_safe_cells. split; [set_solver |]. intros x Hx. apply Hb. set_solver. }
  set (ai2 := mark_safe ai1 cell) in *.
  set (ai3 := set_knowledge ai2 _).
  assert (tidy ai3) as H3.
  { destruct H2 as [Hp2 Hk2]. split; [done |]. simpl.
    apply Forall_app. split; [done |]. apply Forall_singleton.
    rewrite new_sentence_cells. split; [set_solver |].
    intros x Hx. assert (x ∈ nearby ai2 cell) as Hn by set_solver.
    apply nearby_elem in Hn as (_ & _ & Hb). done. }
  assert (tidy (extract_pass ai3)) as [Hp4 Hk4].
  { unfold extract_pass. apply (extract_loop_keeps tidy); [| done].
    apply extract_one_tidy. }
  split; [done |]. simpl. by apply prune_keeps.
Qed.

Lemma add_knowledge_tidy fuel ai cell count ai' :
  tidy ai → add_knowledge fuel ai cell count = Some ai' → tidy ai'.
Proof.
  intros Hai. unfold add_knowledge.
  pose proof (observe_tidy ai cell count Hai) as [Hp Hk].
  destruct (infer_outer _ _ _) as [k|] eqn:Hk'; [| done]. intros [= <-].
  split; [done |]. simpl.
  eapply infer_outer_keeps; [| done | done].
  intros sub sup _ _ [Hd Hb]. simpl. split; [set_solver |].
  intros x Hx. apply Hb. set_solver.
Qed.

Lemma reachable_tidy ai : reachable ai → tidy ai.
Proof.
  induction 1 as [h w | ai fuel cell count ai' _ IH Hadd | ai cell _ IH | ai cell _ IH].
  - split; simpl; [set_solver | done].
  - by eapply add_knowledge_tidy.
  - by apply mark_mine_tidy.
  - by apply mark_safe_tidy.
Qed.

(** The pass of step 4 plays no move. *)
Lemma extract_pass_moves ai : moves_made (extract_pass ai) = moves_made ai.
Proof.
  unfold extract_pass.
  apply (extract_loop_keeps (λ a, moves_made a = moves_made ai)); [| done].
  intros a s Ha _. rewrite <- Ha. unfold extract_one.
  repeat case_decide; [by rewrite mark_mines_eq | by rewrite mark_safes_eq | done].
Qed.

Lemma extract_pass_grows ai :
  mines ai ⊆ mines (extract_pass ai) ∧ safes ai ⊆ safes (extract_pass ai).
Proof.
  unfold extract_pass.
  apply (extract_loop_keeps (λ a, mines ai ⊆ mines a ∧ safes ai ⊆ safes a)); [| done].
  intros a s [Hm Hs] _. destruct (extract_one_grows a s). split; set_solver.
Qed.

(** Once played, the cell is in no sentence. *)
Lemma observe_forgets ai cell count :
  Forall (λ s, cell ∉ Sentence.cells s) (knowledge (observe ai cell count)).
Proof.
  unfold observe. simpl. apply prune_keeps. unfold extract_pass.
  apply (extract_loop_keeps (λ a, Forall (λ s, cell ∉ Sentence.cells s) (knowledge a))).
  - intros a s Ha _. unfold extract_one.
    repeat case_decide; [rewrite mark_mines_eq | rewrite mark_safes_eq | done]; simpl;
      apply Forall_fmap; (eapply Forall_impl; [done |]); intros s' Hs'; simpl; set_solver.
  - simpl. apply Forall_app. split.
    + apply Forall_fmap, Forall_forall. intros s _. simpl. rewrite mark_safe_cells. set_solver.
    + apply Forall_singleton. rewrite new_sentence_cells. simpl. set_solver.
Qed.

(** The sentence with no cells and count 0 is in no list the call leaves. *)
Lemma inferred_cells sub sup :
  Sentence.cells sub ⊂ Sentence.cells sup → Sentence.cells (inferred sub sup) ≠ ∅.
Proof.
  intros [Hs Hn] He. simpl in He. apply Hn. intros x Hx.
  destruct (decide (x ∈ Sentence.cells sub)) as [| Hxs]; [done |].
  assert (x ∈ Sentence.cells sup ∖ Sentence.cells sub) as Hd by set_solver.
  rewrite He in Hd. set_solver.
Qed.

End Reach.

(** ** An observation with no mine around *)

Section ZeroCount.

Import MinesweeperAI.

Implicit Types (ai : MinesweeperAI.t) (s : Sentence.t) (c cell : Cell) (m N : gset Cell).

Lemma extract_one_zero m N n ai s0 :
  holds m s0 → zero_at m N n ai → zero_at m N n (extract_one ai s0).
Proof.
  intros Hs0 [Hai (s & Hn & Hz & HN)].
  split; [by apply extract_one_consistent |].
  destruct Hai as (Hm & Hsafe & Hk).
  assert (holds m s) as Hs.
  { eapply Forall_forall in Hk; [done |]. by eapply list_elem_of_lookup_2. }
  assert (Sentence.cells s ∩ m = ∅) as Hsm.
  { unfold holds in Hs. apply leibniz_equiv, size_empty_iff. lia. }
  pose proof (known_mines_holds m s0 Hs0) as HX.
  unfold extract_one.
  repeat case_decide; [rewrite mark_mines_eq | rewrite mark_safes_eq | by exists s]; simpl;
    rewrite list_lookup_fmap, Hn; simpl; eexists; (split; [done |]); simpl.
  - split; [| set_solver].
    set_rw (Sentence.cells s ∩ Sentence.known_mines s0) as (∅ : gset Cell).
    rewrite size_empty. lia.
  - split; [done |]. intros x Hx. apply HN in Hx.
    destruct (decide (x ∈ Sentence.known_safes s0)); set_solver.
Qed.

Lemma extract_turns_zero m N n l ai :
  zero_at m N n ai → zero_at m N n (foldl extract_turn ai l).
Proof.
  revert ai. induction l as [|i l IH]; intros ai Hai; simpl; [done |].
  apply IH. unfold extract_turn. destruct (knowledge ai !! i) as [s0|] eqn:Hi; [| done].
  apply extract_one_zero; [| done].
  destruct Hai as [(_ & _ & Hk) _].
  eapply Forall_forall in Hk; [done |]. by eapply list_elem_of_lookup_2.
Qed.

Lemma extract_pass_snoc ai n :
  length (knowledge ai) = S n →
  extract_pass ai = extract_turn (foldl extract_turn ai (seq 0 n)) n.
Proof.
  intros Hlen. unfold extract_pass. by rewrite extract_loop_turns, Hlen, seq_S, foldl_app.
Qed.

(** The last turn of the pass marks what is left of a sentence with
    count 0. *)
Lemma extract_turn_zero m N n ai :
  zero_at m N n ai → N ⊆ safes (extract_turn ai n).
Proof.
  intros [_ (s & Hn & Hsz & HsN)]. unfold extract_turn. rewrite Hn. unfold extract_one.
  destruct (known_mines_case s) as [(_ & _ & Hnz) | [-> _]]; [done |].
  destruct (known_safes_case s) as [[-> _] | [_ Hnz]]; [| done].
  rewrite decide_False by (intros H; by apply H).
  case_decide as He; [rewrite mark_safes_eq; cbn [safes]; exact HsN |].
  assert (Sentence.cells s = ∅) as Hse.
  { destruct (decide (Sentence.cells s = ∅)); [done | by destruct He]. }
  rewrite Hse in HsN. intros x Hx. apply HsN in Hx.
  apply elem_of_union in Hx as [Hx | Hx]; [by apply elem_of_empty in Hx | done].
Qed.

Lemma extract_pass_zero m N n ai :
  zero_at m N n ai → length (knowledge ai) = S n → N ⊆ safes (extract_pass ai).
Proof.
  intros Hz Hlen. rewrite (extract_pass_snoc ai n Hlen).
  apply (extract_turn_zero m). by apply extract_turns_zero.
Qed.

Lemma nearby_dims ai ai' cell :
  height ai = height ai' → width ai = width ai' → nearby ai cell = nearby ai' cell.
Proof. intros Hh Hw. unfold nearby, in_bounds. by rewrite Hh, Hw. Qed.

(** With no mine around the cell and none of the cells around it marked
    as one, the new sentence has count 0, and the pass marks its cells. *)
Lemma new_sentence_zero_count m ai cell :
  consistent m ai → nearby ai cell ## m → Sentence.count (new_sentence ai cell 0) = 0.
Proof.
  intros (Hm & Hs & Hk) Hnear. rewrite new_sentence_count.
  set_rw (nearby ai cell ∩ mines ai) as (∅ : gset Cell). rewrite size_empty. lia.
Qed.

Lemma new_sentence_zero_holds m ai cell :
  consistent m ai → nearby ai cell ## m → holds m (new_sentence ai cell 0).
Proof.
  intros Hai Hnear. unfold holds.
  rewrite (new_sentence_zero_count m) by done. rewrite new_sentence_cells.
  set_rw ((nearby ai cell ∖ mines ai ∖ safes ai) ∩ m) as (∅ : gset Cell).
  rewrite size_empty. lia.
Qed.

Lemma set_knowledge_consistent m ai k :
  consistent m ai → Forall (holds m) k → consistent m (set_knowledge ai k).
Proof. intros (Hm & Hs & _) Hk. by split; [| split]. Qed.

Lemma new_sentence_zero_at m ai cell :
  consistent m ai → nearby ai cell ## m →
  zero_at m (Sentence.cells (new_sentence ai cell 0)) (length (knowledge ai))
    (set_knowledge ai (knowledge ai ++ [new_sentence ai cell 0])).
Proof.
  intros Hai Hnear. split.
  - apply set_knowledge_consistent; [done |].
    apply Forall_app. split; [by destruct Hai as (_ & _ & Hk) |].
    apply Forall_singleton. by apply new_sentence_zero_holds.
  - exists (new_sentence ai cell 0). split; [apply list_lookup_middle; reflexivity |].
    split; [by eapply new_sentence_zero_count |].
    apply union_subseteq_l.
Qed.

Lemma new_sentence_zero m ai cell :
  consistent m ai → nearby ai cell ## m →
  Sentence.cells (new_sentence ai cell 0)
  ⊆ safes (extract_pass (set_knowledge ai (knowledge ai ++ [new_sentence ai cell 0]))).
Proof.
  intros Hai Hnear.
  apply (extract_pass_zero m _ (length (knowledge ai))).
  - by apply new_sentence_zero_at.
  - unfold set_knowledge. cbn [knowledge]. rewrite length_app. simpl. lia.
Qed.

Lemma observe_safes ai cell count :
  safes (observe ai cell count)
  = safes (extract_pass
      (set_knowledge
         (mark_safe {| height := height ai; width := width ai;
                       moves_made := {[cell]} ∪ moves_made ai; mines := mines ai;
                       safes := safes ai; knowledge := knowledge ai |} cell)
         (knowledge
            (mark_safe {| height := height ai; width := width ai;
                          moves_made := {[cell]} ∪ moves_made ai; mines := mines ai;
                          safes := safes ai; knowledge := knowledge ai |} cell)
          ++ [new_sentence
                (mark_safe {| height := height ai; width := width ai;
                              moves_made := {[cell]} ∪ moves_made ai; mines := mines ai;
                              safes := safes ai; knowledge := knowledge ai |} cell)
                cell count]))).
Proof. reflexivity. Qed.

Lemma observe_zero m ai cell :
  consistent m ai → cell ∉ m → nearby ai cell ## m →
  nearby ai cell ⊆ safes (observe ai cell 0).
Proof.
  intros (Hm & Hs & Hk) Hc Hnear. rewrite observe_safes.
  remember {| height := height ai; width := width ai;
              moves_made := {[cell]} ∪ moves_made ai; mines := mines ai;
              safes := safes ai; knowledge := knowledge ai |} as ai1 eqn:Hai1.
  assert (consistent m (mark_safe ai1 cell)) as H2.
  { apply mark_safe_consistent; [done |]. rewrite Hai1. by repeat split. }
  assert (nearby (mark_safe ai1 cell) cell = nearby ai cell) as Hnb.
  { apply nearby_dims; by rewrite Hai1. }
  assert (mines (mark_safe ai1 cell) = mines ai) as Hm2 by by rewrite Hai1.
  assert (safes (mark_safe ai1 cell) = {[cell]} ∪ safes ai) as Hs2 by by rewrite Hai1.
  remember (mark_safe ai1 cell) as ai2 eqn:Hai2. clear Hai1 Hai2 ai1.
  pose proof (new_sentence_zero m ai2 cell H2) as Hpass.
  rewrite Hnb in Hpass. specialize (Hpass Hnear).
  pose proof (extract_pass_grows
    (set_knowledge ai2 (knowledge ai2 ++ [new_sentence ai2 cell 0]))) as [_ Hgrow].
  cbn [safes set_knowledge] in Hgrow.
  rewrite new_sentence_cells, Hnb, Hm2, Hs2 in Hpass. rewrite Hs2 in Hgrow.
  intros x Hx.
  destruct (decide (x ∈ {[cell]} ∪ safes ai)) as [Hin | Hout]; [by apply Hgrow |].
  apply Hpass. clear -Hx Hout Hm Hnear. set_solver.
Qed.

End ZeroCount.

(** ** Lists on which the loops of the subset rule have no end *)

Section NoEnd.

Import MinesweeperAI.

Implicit Types (s e sub sup : Sentence.t) (k : list Sentence.t).

(** A list closed under lowering the count by a fixed non-zero amount holds
    no sentence with cells. *)
Lemma no_descent k (d : Z) s :
  d ≠ 0 → s ∈ k →
  (∀ sup, sup ∈ k → Sentence.new (Sentence.cells sup) (Sentence.count sup - d) ∈ k) →
  False.
Proof.
  intros Hd Hs Hcl. destruct s as [X n]. simpl in *.
  set (f := λ t : nat, Sentence.new X (n - Z.of_nat t * d)).
  assert (∀ t, f t ∈ k) as Hall.
  { intros t. induction t as [|t IH]; unfold f in *.
    - by replace (n - Z.of_nat 0 * d) with n by lia.
    - apply Hcl in IH. simpl in IH.
      by replace (n - Z.of_nat (S t) * d) with (n - Z.of_nat t * d - d) by lia. }
  assert (Inj (=) (=) f) as Hinj.
  { intros t1 t2 Heq. unfold f in Heq. injection Heq as Heq. nia. }
  assert (NoDup (f <$> seq 0 (S (length k)))) as Hnd.
  { apply NoDup_fmap_2; [done | apply NoDup_seq]. }
  assert (f <$> seq 0 (S (length k)) ⊆+ k) as Hsub.
  { apply NoDup_submseteq; [done |]. intros x Hx.
    apply list_elem_of_fmap in Hx as (t & -> & _). apply Hall. }
  apply submseteq_length in Hsub. rewrite length_fmap, length_seq in Hsub. lia.
Qed.

(** The inner loop for a sentence with no cells and a count that is not 0
    has no end once the list holds a sentence with cells. *)
Lemma infer_inner_no_end fuel k e s :
  Sentence.cells e = ∅ → Sentence.count e ≠ 0 →
  s ∈ k → Sentence.cells s ≠ ∅ →
  infer_inner fuel k e 0 = None.
Proof.
  intros He Hd Hs Hsc.
  destruct (infer_inner fuel k e 0) as [k'|] eqn:Hin; [| done]. exfalso.
  pose proof (infer_inner_prefix _ _ _ _ _ Hin) as Hp.
  pose proof (infer_inner_covers _ _ _ _ _ Hin) as Hcov.
  set (k1 := filter (λ x, Sentence.cells x ≠ ∅) k').
  apply (no_descent k1 (Sentence.count e) s Hd).
  - apply list_elem_of_filter. split; [done | by eapply prefix_elem].
  - intros sup Hsup. apply list_elem_of_filter in Hsup as [Hne Hsup].
    apply list_elem_of_filter. split; [done |].
    apply list_elem_of_lookup_1 in Hsup as [j Hj].
    assert (Sentence.cells e ⊂ Sentence.cells sup) as Hsub.
    { rewrite He. split; [set_solver |]. intros Hback. apply Hne. set_solver. }
    pose proof (Hcov j sup ltac:(lia) Hj Hsub) as Hinf.
    assert (inferred e sup
            = Sentence.new (Sentence.cells sup) (Sentence.count sup - Sentence.count e)) as <-;
      [| done].
    apply sentence_eq; simpl; [| done]. rewrite He. set_solver.
Qed.

Lemma infer_outer_no_end fuel k i i0 e s :
  k !! i0 = Some e → (i ≤ i0)%nat →
  Sentence.cells e = ∅ → Sentence.count e ≠ 0 →
  s ∈ k → Sentence.cells s ≠ ∅ →
  infer_outer fuel k i = None.
Proof.
  intros Hi0 Hle He Hd Hs Hsc. revert k i Hi0 Hle Hs.
  induction fuel as [|f IH]; intros k i Hi0 Hle Hs; simpl; [done |].
  destruct (k !! i) as [sub|] eqn:Hi.
  2: { apply lookup_ge_None_1 in Hi. apply lookup_lt_Some in Hi0. lia. }
  destruct (infer_inner f k sub 0) as [k1|] eqn:Hin; [| done].
  pose proof (infer_inner_prefix _ _ _ _ _ Hin) as Hp.
  destruct (decide (i = i0)) as [-> | Hne].
  - assert (sub = e) as -> by congruence.
    by rewrite (infer_inner_no_end f k e s) in Hin.
  - apply IH; [by eapply prefix_lookup_Some | lia | by eapply prefix_elem].
Qed.

End NoEnd.

(** ** make_safe_move *)

Section SafeMoveFacts.

Import MinesweeperAI.

Variable set_iter : gset Cell → list Cell.
Hypothesis set_iter_members : visits_members set_iter.

Lemma make_safe_move_state ai : (make_safe_move set_iter ai).2 = ai.
Proof.
  unfold make_safe_move. case_bool_decide; [| done].
  by destruct (list_find _ _) as [[i c]|].
Qed.

Lemma make_safe_move_some ai c :
  (make_safe_move set_iter ai).1 = Some c → c ∈ safes ai ∧ c ∉ moves_made ai.
Proof.
  unfold make_safe_move. case_bool_decide; [| done].
  destruct (list_find _ _) as [[i c']|] eqn:Hf; [| done]. simpl. intros [= ->].
  apply list_find_Some in Hf as (Hi & Hc & _). split; [| done].
  apply set_iter_members. by eapply list_elem_of_lookup_2.
Qed.

Lemma make_safe_move_none ai :
  (make_safe_move set_iter ai).1 = None ↔ safes ai ⊆ moves_made ai.
Proof.
  unfold make_safe_move. case_bool_decide as Hsz.
  - destruct (list_find _ _) as [[i c']|] eqn:Hf; simpl.
    + split; [done |]. intros Hsub.
      apply list_find_Some in Hf as (Hi & Hc & _). destruct Hc. apply Hsub.
      apply set_iter_members. by eapply list_elem_of_lookup_2.
    + split; [| done]. intros _ c Hc.
      apply list_find_None in Hf.
      apply set_iter_members in Hc. eapply Forall_forall in Hf; [| done].
      destruct (decide (c ∈ moves_made ai)); [done | by destruct Hf].
  - split; [| done]. intros _.
    assert (safes ai = ∅) as ->; [| set_solver].
    apply leibniz_equiv, size_empty_iff. lia.
Qed.

End SafeMoveFacts.

Lemma elements_members : visits_members elements.
Proof. intros X c. apply elem_of_elements. Qed.

(** ** What the loops of the subset rule append *)

Section Appended.

Import MinesweeperAI.

Implicit Types (s sub sup : Sentence.t) (k suf : list Sentence.t).

Lemma appended_trans k k1 k2 :
  (∃ suf, k1 = k ++ suf ∧ NoDup suf ∧ ∀ s, s ∈ suf → s ∉ k) →
  (∃ suf, k2 = k1 ++ suf ∧ NoDup suf ∧ ∀ s, s ∈ suf → s ∉ k1) →
  ∃ suf, k2 = k ++ suf ∧ NoDup suf ∧ ∀ s, s ∈ suf → s ∉ k.
Proof.
  intros (suf1 & -> & Hnd1 & Hf1) (suf2 & -> & Hnd2 & Hf2).
  exists (suf1 ++ suf2). split; [by rewrite <- app_assoc |]. split.
  - apply NoDup_app. split; [done |]. split; [| done].
    intros x Hx1 Hx2. apply (Hf2 x Hx2). apply elem_of_app. by right.
  - intros x Hx Hk. apply elem_of_app in Hx as [Hx | Hx]; [by apply (Hf1 x) |].
    apply (Hf2 x Hx). apply elem_of_app. by left.
Qed.

Lemma infer_step_appended k sub sup :
  ∃ suf, infer_step k sub sup = k ++ suf ∧ NoDup suf ∧ ∀ s, s ∈ suf → s ∉ k.
Proof.
  unfold infer_step. case_decide; [cbv zeta; case_decide |].
  - exists []. split; [by rewrite app_nil_r |]. split; [apply NoDup_nil_2 | set_solver].
  - exists [inferred sub sup]. split; [done |]. split; [apply NoDup_singleton |].
    intros s Hs. by apply list_elem_of_singleton in Hs as ->.
  - exists []. split; [by rewrite app_nil_r |]. split; [apply NoDup_nil_2 | set_solver].
Qed.

Lemma infer_inner_appended fuel k sub j k' :
  infer_inner fuel k sub j = Some k' →
  ∃ suf, k' = k ++ suf ∧ NoDup suf ∧ ∀ s, s ∈ suf → s ∉ k.
Proof.
  revert k j. induction fuel as [|f IH]; intros k j; simpl; [done |].
  destruct (k !! j) as [sup|].
  - intros H. eapply appended_trans; [apply infer_step_appended | by eapply IH].
  - intros [= <-]. exists []. split; [by rewrite app_nil_r |].
    split; [apply NoDup_nil_2 | set_solver].
Qed.

Lemma infer_outer_appended fuel k i k' :
  infer_outer fuel k i = Some k' →
  ∃ suf, k' = k ++ suf ∧ NoDup suf ∧ ∀ s, s ∈ suf → s ∉ k.
Proof.
  revert k i. induction fuel as [|f IH]; intros k i; simpl; [done |].
  destruct (k !! i) as [sub|].
  - destruct (infer_inner f k sub 0) as [k1|] eqn:Hin; [| done].
    intros H. eapply appended_trans; [by eapply infer_inner_appended | by eapply IH].
  - intros [= <-]. exists []. split; [by rewrite app_nil_r |].
    split; [apply NoDup_nil_2 | set_solver].
Qed.

End Appended.

(** ** What the turns of the pass of step 4 mark *)

Section PassMarks.

Import MinesweeperAI.

Implicit Types (ai a : MinesweeperAI.t) (s : Sentence.t) (X : gset Cell) (i n : nat).









End PassMarks.

(** ** The claims *)

Section Claims.

Import MinesweeperAI.

Lemma first_added_member : pops_member first_added.
Proof. intros [|c l] Hl; [done |]. simpl. apply elem_of_cons. by left. Qed.

(** C7.  [known_mines] gives all the cells of the sentence when their
    number equals the count and the count is not zero, and the empty set
    otherwise; [known_safes] gives all the cells when the count is zero,
    and the empty set otherwise.  The empty sentence with count 0 has no
    known mines. *)
Theorem known_cells_spec (s : Sentence.t) :
  (Z.of_nat (size (Sentence.cells s)) = Sentence.count s ∧ Sentence.count s ≠ 0 →
     Sentence.known_mines s = Sentence.cells s) ∧
  (¬ (Z.of_nat (size (Sentence.cells s)) = Sentence.count s ∧ Sentence.count s ≠ 0) →
     Sentence.known_mines s = ∅) ∧
  (Sentence.count s = 0 → Sentence.known_safes s = Sentence.cells s) ∧
  (Sentence.count s ≠ 0 → Sentence.known_safes s = ∅) ∧
  Sentence.known_mines (Sentence.new ∅ 0) = ∅.
Proof.
  repeat split.
  - intros H. by destruct (known_mines_case s) as [[? _] | [_ ?]].
  - intros H. by destruct (known_mines_case s) as [[_ ?] | [? _]].
  - intros H. by destruct (known_safes_case s) as [[? _] | [_ ?]].
  - intros H. by destruct (known_safes_case s) as [[_ ?] | [? _]].
Qed.

Lemma known_cells_spec_witness :
  Sentence.known_mines (Sentence.new {[(0, 0); (0, 1)]} 2)
    = Sentence.cells (Sentence.new {[(0, 0); (0, 1)]} 2) ∧
  Sentence.known_safes (Sentence.new {[(0, 0); (0, 1)]} 0)
    = Sentence.cells (Sentence.new {[(0, 0); (0, 1)]} 0).
Proof.
  split.
  - apply (proj1 (known_cells_spec (Sentence.new {[(0, 0); (0, 1)]} 2))).
    split; [vm_compute; reflexivity | discriminate].
  - apply (proj1 (proj2 (proj2 (known_cells_spec (Sentence.new {[(0, 0); (0, 1)]} 0))))).
    reflexivity.
Defined.

(** C2.  When [mark_mine c] or [mark_safe c] of the knowledge base returns,
    no sentence of the knowledge list has [c] among its cells. *)
Theorem mark_propagates (ai : MinesweeperAI.t) (c : Cell) :
  Forall (λ s, c ∉ Sentence.cells s) (knowledge (mark_mine ai c)) ∧
  Forall (λ s, c ∉ Sentence.cells s) (knowledge (mark_safe ai c)).
Proof.
  split; simpl; apply Forall_fmap, Forall_forall; intros s _; simpl.
  - rewrite mark_mine_cells. set_solver.
  - rewrite mark_safe_cells. set_solver.
Qed.

(** C10.  [make_random_move] draws on nothing but the state: two knowledge
    bases with the same height, width, moves made and mines get the same
    answer, the same cell or [None] for both, whatever else they hold. *)
Theorem random_move_deterministic (set_pop : list Cell → Cell) (ai1 ai2 : MinesweeperAI.t) :
  height ai1 = height ai2 → width ai1 = width ai2 →
  moves_made ai1 = moves_made ai2 → mines ai1 = mines ai2 →
  (make_random_move set_pop ai1).1 = (make_random_move set_pop ai2).1.
Proof.
  intros Hh Hw Hp Hm.
  assert (eventual_adds ai1 = eventual_adds ai2) as Hadds.
  { unfold eventual_adds, grid. by rewrite Hh, Hw, Hp, Hm. }
  unfold make_random_move, eventualMoves. rewrite Hadds.
  by case_decide.
Qed.

Lemma random_move_deterministic_witness :
  (make_random_move first_added (init 1 2)).1 =
  (make_random_move first_added
     {| height := 1; width := 2; moves_made := ∅; mines := ∅;
        safes := {[(0, 0)]}; knowledge := [Sentence.new {[(0, 1)]} 1] |}).1.
Proof. apply random_move_deterministic; reflexivity. Defined.

(** C9, as the code has it.  The list comprehension drops exactly the
    sentences equal to [Sentence(set(), 0)], an empty cell set with count 0,
    and keeps every other sentence, each as often as the list holds it and
    in its place; a sentence with an empty cell set and another count
    stays. *)
Theorem prune_spec (k : list Sentence.t) (s : Sentence.t) :
  (s ∈ prune k ↔ s ∈ k ∧ ¬ (Sentence.cells s = ∅ ∧ Sentence.count s = 0)) ∧
  prune k `sublist_of` k ∧
  prune [] = [] ∧
  prune (s :: k) =
    (if decide (Sentence.cells s = ∅ ∧ Sentence.count s = 0) then prune k
     else s :: prune k) ∧
  (∀ k', prune (k ++ k') = prune k ++ prune k') ∧
  ((∀ x, x ∈ k → ¬ (Sentence.cells x = ∅ ∧ Sentence.count x = 0)) → prune k = k).
Proof.
  split; [| split; [apply sublist_filter | split; [done | split; [| split]]]].
  - rewrite prune_elem. split; intros [Hs Hn]; (split; [done |]).
    + intros [Hc Hz]. apply Hn. by apply sentence_eq.
    + intros ->. by apply Hn.
  - unfold prune. rewrite filter_cons. case_decide as Hd.
    + rewrite decide_False; [done |]. intros [Hc Hz]. apply Hd. by apply sentence_eq.
    + rewrite decide_True; [done |]. destruct (decide (s = Sentence.new ∅ 0)) as [-> |];
        [done | by destruct Hd].
  - intros k'. apply filter_app.
  - intros Hall. unfold prune. induction k as [|x k IH]; [done |].
    rewrite filter_cons. rewrite decide_True.
    + f_equal. apply IH. intros y Hy. apply Hall. apply elem_of_cons. by right.
    + intros ->. apply (Hall (Sentence.new ∅ 0)); [apply elem_of_cons; by left | done].
Qed.

(** C9, counterexample.  A sentence with no cells and count 1 passes the
    pruning; the observation of the one cell of a 1 x 1 board with count 1
    leaves such a sentence in the knowledge base. *)
Lemma prune_keeps_empty_nonzero :
  prune [Sentence.new ∅ 1] = [Sentence.new ∅ 1] ∧
  play 10 (init 1 1) [((0, 0), 1)] =
    Some {| height := 1; width := 1; moves_made := {[(0, 0)]}; mines := ∅;
            safes := {[(0, 0)]}; knowledge := [Sentence.new ∅ 1] |}.
Proof. split; vm_compute; reflexivity. Qed.

(** X20.  [make_random_move] leaves the knowledge base as it was; it
    answers [None] exactly when no cell of the board is left that is neither
    played nor a known mine; a cell it answers is such a cell, on the board
    and never one of [moves_made] or [mines]. *)
Theorem random_move_spec (set_pop : list Cell → Cell) (ai : MinesweeperAI.t) :
  pops_member set_pop →
  (make_random_move set_pop ai).2 = ai ∧
  ((make_random_move set_pop ai).1 = None ↔ candidates ai = ∅) ∧
  (∀ c, (make_random_move set_pop ai).1 = Some c →
        c ∈ candidates ai ∧ (c ∉ moves_made ai) ∧ (c ∉ mines ai) ∧
        0 ≤ c.1 < height ai ∧ 0 ≤ c.2 < width ai).
Proof.
  intros Hpop. unfold make_random_move.
  destruct (decide (size (eventualMoves ai) = 0%nat)) as [He | He]; simpl.
  - split; [done |]. split; [| done]. split; [intros _ | done].
    rewrite <- eventualMoves_candidates. by apply leibniz_equiv, size_empty_iff.
  - split; [done |]. split.
    + split; [done |]. intros Hc. destruct He.
      rewrite eventualMoves_candidates, Hc. apply size_empty.
    + intros c [= <-].
      assert (eventual_adds ai ≠ []) as Hne by by rewrite <- eventualMoves_empty.
      pose proof (Hpop _ Hne) as Hin.
      apply eventual_adds_elem in Hin as (Hg & Hp & Hm).
      split; [| split; [done | split; [done | by apply grid_elem]]].
      unfold candidates. rewrite !elem_of_difference, elem_of_list_to_set. done.
Qed.

Lemma random_move_spec_witness :
  (make_random_move first_added (init 1 2)).2 = init 1 2 ∧
  ((make_random_move first_added (init 1 2)).1 = None ↔ candidates (init 1 2) = ∅) ∧
  (∀ c, (make_random_move first_added (init 1 2)).1 = Some c →
        c ∈ candidates (init 1 2) ∧ (c ∉ moves_made (init 1 2)) ∧ (c ∉ mines (init 1 2)) ∧
        0 ≤ c.1 < height (init 1 2) ∧ 0 ≤ c.2 < width (init 1 2)).
Proof. exact (random_move_spec first_added (init 1 2) first_added_member). Defined.

(** C8, on the code.  [make_random_move] draws nothing: a second call on
    the state the first call leaves gives the answer of the first, and on a
    fresh board of one row and two cells, where both cells are candidates,
    no [set.pop()] makes the call answer each of them.  The answer is the
    one cell [set.pop()] takes, not a choice among the candidates. *)
Theorem random_move_not_uniform :
  (∀ (set_pop : list Cell → Cell) ai,
     (make_random_move set_pop (make_random_move set_pop ai).2).1
     = (make_random_move set_pop ai).1) ∧
  (0, 0) ∈ candidates (init 1 2) ∧ (0, 1) ∈ candidates (init 1 2) ∧
  ¬ ∃ set_pop : list Cell → Cell,
      pops_member set_pop ∧
      ∀ c, c ∈ candidates (init 1 2) → (make_random_move set_pop (init 1 2)).1 = Some c.
Proof.
  split; [| split; [by_evaluation | split; [by_evaluation |]]].
  - intros set_pop ai.
    assert ((make_random_move set_pop ai).2 = ai) as ->; [| done].
    unfold make_random_move. by case_decide.
  - intros (set_pop & _ & Hall).
    assert ((0, 0) ∈ candidates (init 1 2)) as H0 by by_evaluation.
    assert ((0, 1) ∈ candidates (init 1 2)) as H1 by by_evaluation.
    apply Hall in H0, H1. rewrite H0 in H1. discriminate H1.
Qed.

(** C1, as the code has it.  In a game whose calls agree with the board
    (see [truthful]) every sentence of the knowledge base keeps
    [0 <= count <= |cells|], and the next observation of such a game
    returns.  On one sentence, [mark_mine] keeps the bound when the cell is
    absent or the count is at least 1, [mark_safe] when the cell is absent
    or the count is below the number of cells. *)
Theorem sentence_bound_truthful :
  (∀ g ai, truthful g ai → Forall bounded (knowledge ai)) ∧
  (∀ g ai cell, truthful g ai → cell ∉ Minesweeper.mines g →
     ∃ fuel ai', add_knowledge fuel ai cell (Minesweeper.nearby_mines g cell) = Some ai') ∧
  (∀ s c, bounded s → c ∉ Sentence.cells s ∨ 1 ≤ Sentence.count s →
          bounded (Sentence.mark_mine s c)) ∧
  (∀ s c, bounded s →
          c ∉ Sentence.cells s ∨ Sentence.count s < Z.of_nat (size (Sentence.cells s)) →
          bounded (Sentence.mark_safe s c)).
Proof.
  split; [| split; [| split]].
  - intros g ai Hai. apply truthful_consistent in Hai as (_ & _ & Hk).
    eapply Forall_impl; [done |]. apply holds_bounded.
  - apply truthful_add_returns.
  - apply mark_mine_bounded.
  - apply mark_safe_bounded.
Qed.

Lemma sentence_bound_truthful_witness :
  Forall bounded
    (knowledge {| height := 2; width := 2; moves_made := {[(0, 1)]}; mines := ∅;
                  safes := {[(0, 1)]};
                  knowledge := [Sentence.new {[(0, 0); (1, 0); (1, 1)]} 1] |}).
Proof.
  apply (proj1 sentence_bound_truthful (Minesweeper.mk 2 2 {[(1, 0)]})).
  apply (truthful_add _ (init 2 2) 10 (0, 1)).
  - apply (truthful_init (Minesweeper.mk 2 2 {[(1, 0)]})).
  - by_evaluation.
  - vm_compute. reflexivity.
Defined.

(** C1, counterexample.  [mark_safe] takes a sentence within the bound out
    of it, and so does [mark_mine]; after one observation on a 1 x 3 board,
    two calls of the knowledge base's [mark_safe] leave a sentence with no
    cells and count 1. *)
Lemma sentence_bound_broken :
  (bounded (Sentence.new {[(0, 0)]} 1) ∧
   ¬ bounded (Sentence.mark_safe (Sentence.new {[(0, 0)]} 1) (0, 0))) ∧
  (bounded (Sentence.new {[(0, 0)]} 0) ∧
   ¬ bounded (Sentence.mark_mine (Sentence.new {[(0, 0)]} 0) (0, 0))) ∧
  (∃ ai, play 10 (init 1 3) [((0, 1), 1)] = Some ai ∧
         Forall bounded (knowledge ai) ∧
         knowledge (mark_safe (mark_safe ai (0, 0)) (0, 2)) = [Sentence.new ∅ 1] ∧
         ¬ Forall bounded (knowledge (mark_safe (mark_safe ai (0, 0)) (0, 2)))).
Proof.
  split; [split; by_evaluation |]. split; [split; by_evaluation |].
  eexists. split; [vm_compute; reflexivity |].
  split; [by_evaluation |]. split; [vm_compute; reflexivity | by_evaluation].
Qed.

(** C6, as the code has it.  As long as no observation is made of a known
    mine and no cell is marked against an earlier mark (see [careful]), the
    known mines and the known safe cells are disjoint. *)
Theorem careful_marks_disjoint (ai : MinesweeperAI.t) :
  careful ai → mines ai ## safes ai.
Proof. intros Hai. by apply careful_clean in Hai as [Hd _]. Qed.

Lemma careful_marks_disjoint_witness :
  mines {| height := 1; width := 2; moves_made := {[(0, 0)]}; mines := {[(0, 1)]};
           safes := {[(0, 0)]}; knowledge := [] |}
  ## safes {| height := 1; width := 2; moves_made := {[(0, 0)]}; mines := {[(0, 1)]};
              safes := {[(0, 0)]}; knowledge := [] |}.
Proof.
  apply careful_marks_disjoint.
  apply (careful_add (init 1 2) 10 (0, 0) 1).
  - apply careful_init.
  - by_evaluation.
  - vm_compute. reflexivity.
Defined.

(** C6, counterexample.  A cell marked a mine and then safe is in both
    sets; so is a known mine that is observed afterwards. *)
Lemma marks_cross :
  ¬ mines (mark_safe (mark_mine (init 1 1) (0, 0)) (0, 0))
    ## safes (mark_safe (mark_mine (init 1 1) (0, 0)) (0, 0)) ∧
  (∃ ai, play 10 (init 1 2) [((0, 0), 1); ((0, 1), 0)] = Some ai ∧
         (0, 1) ∈ mines ai ∧ (0, 1) ∈ safes ai ∧ ¬ mines ai ## safes ai).
Proof.
  split; [by_evaluation |].
  eexists. split; [vm_compute; reflexivity |]. repeat split; by_evaluation.
Qed.

(** C3, as the code has it.  The subset rule is sound: when the cells of
    [sub] are a strict subset of the cells of [sup], every layout of mines
    in which both hold makes the sentence with the cells of [sup] that are
    not in [sub], and the count of [sup] less the count of [sub], hold.  The
    loop body builds that sentence, appends it when no equal sentence is in
    the list, and leaves the list alone otherwise.  When [add_knowledge]
    returns, the list after the pruning is still there, in front; what
    stands behind it are sentences of the rule, none of them twice and none
    an equal of a sentence in front; and the list holds the sentence of the
    rule for every ordered pair of its sentences.  The call does return
    when the sentences after the pruning all hold in one layout of mines. *)
Theorem subset_rule :
  (∀ m sub sup, Sentence.cells sub ⊂ Sentence.cells sup →
     holds m sub → holds m sup →
     holds m (Sentence.new (Sentence.cells sup ∖ Sentence.cells sub)
                           (Sentence.count sup - Sentence.count sub))) ∧
  (∀ sub sup,
     inferred sub sup = Sentence.new (Sentence.cells sup ∖ Sentence.cells sub)
                                     (Sentence.count sup - Sentence.count sub)) ∧
  (∀ k sub sup, Sentence.cells sub ⊂ Sentence.cells sup →
     Sentence.new (Sentence.cells sup ∖ Sentence.cells sub)
                  (Sentence.count sup - Sentence.count sub) ∉ k →
     infer_step k sub sup
     = k ++ [Sentence.new (Sentence.cells sup ∖ Sentence.cells sub)
                          (Sentence.count sup - Sentence.count sub)]) ∧
  (∀ k sub sup,
     Sentence.new (Sentence.cells sup ∖ Sentence.cells sub)
                  (Sentence.count sup - Sentence.count sub) ∈ k
     ∨ ¬ Sentence.cells sub ⊂ Sentence.cells sup →
     infer_step k sub sup = k) ∧
  (∀ fuel ai cell count ai', add_knowledge fuel ai cell count = Some ai' →
     (∃ suf, knowledge ai' = knowledge (observe ai cell count) ++ suf ∧ NoDup suf ∧
        ∀ s, s ∈ suf →
          (s ∉ knowledge (observe ai cell count)) ∧
          ∃ sub sup, sub ∈ knowledge ai' ∧ sup ∈ knowledge ai' ∧
            Sentence.cells sub ⊂ Sentence.cells sup ∧
            s = Sentence.new (Sentence.cells sup ∖ Sentence.cells sub)
                             (Sentence.count sup - Sentence.count sub)) ∧
     (∀ sub sup, sub ∈ knowledge ai' → sup ∈ knowledge ai' →
        Sentence.cells sub ⊂ Sentence.cells sup →
        Sentence.new (Sentence.cells sup ∖ Sentence.cells sub)
                     (Sentence.count sup - Sentence.count sub) ∈ knowledge ai')) ∧
  (∀ m ai cell count, Forall (holds m) (knowledge (observe ai cell count)) →
     ∃ fuel ai', add_knowledge fuel ai cell count = Some ai').
Proof.
  split; [| split; [| split; [| split; [| split]]]].
  - intros m sub sup [Hs _]. by apply (inferred_holds m sub sup).
  - done.
  - intros k sub sup. apply infer_step_new.
  - intros k sub sup [H | H]; [by apply infer_step_known | by apply infer_step_skip].
  - intros fuel ai cell count ai'. unfold add_knowledge.
    destruct (infer_outer _ _ _) as [k|] eqn:Hk; [| done]. intros [= <-].
    cbn [knowledge set_knowledge]. split.
    + destruct (infer_outer_appended _ _ _ _ Hk) as (suf & Heq & Hnd & Hfresh).
      exists suf. split; [done |]. split; [done |]. intros s Hs.
      split; [by apply Hfresh |].
      destruct (infer_outer_new _ _ _ _ Hk s) as [Hold | Hnew]; [| by destruct (Hfresh s) | done].
      rewrite Heq. apply elem_of_app. by right.
    + intros sub sup. eapply (infer_outer_closed _ _ 0); [| done].
      intros a j sub' sup' Ha. lia.
  - apply add_knowledge_ends.
Qed.

Lemma subset_rule_witness :
  holds {[(0, 0)]}
    (Sentence.new
       (Sentence.cells (Sentence.new {[(0, 0); (0, 1)]} 1)
        ∖ Sentence.cells (Sentence.new {[(0, 0)]} 1))
       (Sentence.count (Sentence.new {[(0, 0); (0, 1)]} 1)
        - Sentence.count (Sentence.new {[(0, 0)]} 1))) ∧
  infer_step [Sentence.new {[(0, 0)]} 1; Sentence.new {[(0, 0); (0, 1)]} 1]
             (Sentence.new {[(0, 0)]} 1) (Sentence.new {[(0, 0); (0, 1)]} 1)
  = [Sentence.new {[(0, 0)]} 1; Sentence.new {[(0, 0); (0, 1)]} 1]
      ++ [Sentence.new
            (Sentence.cells (Sentence.new {[(0, 0); (0, 1)]} 1)
             ∖ Sentence.cells (Sentence.new {[(0, 0)]} 1))
            (Sentence.count (Sentence.new {[(0, 0); (0, 1)]} 1)
             - Sentence.count (Sentence.new {[(0, 0)]} 1))].
Proof.
  split.
  - apply (proj1 subset_rule); by_evaluation.
  - apply (proj1 (proj2 (proj2 subset_rule))); by_evaluation.
Defined.

(** C3, counterexample.  On a board of one row and three cells, the
    observation of [(0, 0)] with count 2 and then of [(0, 1)] with count 5
    leaves, after the pruning of the second call, a sentence without cells
    in front of a sentence with the cell [(0, 2)]: an ordered pair of the
    rule.  The second call never returns: no knowledge base comes out of it
    that holds the sentences of the rule. *)
Lemma subset_rule_no_return :
  play 10 (init 1 3) [((0, 0), 2)] =
    Some {| height := 1; width := 3; moves_made := {[(0, 0)]}; mines := ∅;
            safes := {[(0, 0)]}; knowledge := [Sentence.new {[(0, 1)]} 2] |} ∧
  knowledge (observe
      {| height := 1; width := 3; moves_made := {[(0, 0)]}; mines := ∅;
         safes := {[(0, 0)]}; knowledge := [Sentence.new {[(0, 1)]} 2] |} (0, 1) 5)
    = [Sentence.new ∅ 2; Sentence.new {[(0, 2)]} 5] ∧
  Sentence.cells (Sentence.new ∅ 2) ⊂ Sentence.cells (Sentence.new {[(0, 2)]} 5) ∧
  ¬ ∃ fuel ai',
      add_knowledge fuel
        {| height := 1; width := 3; moves_made := {[(0, 0)]}; mines := ∅;
           safes := {[(0, 0)]}; knowledge := [Sentence.new {[(0, 1)]} 2] |} (0, 1) 5
      = Some ai'.
Proof.
  split; [vm_compute; reflexivity |].
  assert (knowledge (observe
      {| height := 1; width := 3; moves_made := {[(0, 0)]}; mines := ∅;
         safes := {[(0, 0)]}; knowledge := [Sentence.new {[(0, 1)]} 2] |} (0, 1) 5)
    = [Sentence.new ∅ 2; Sentence.new {[(0, 2)]} 5]) as Hk by (vm_compute; reflexivity).
  split; [done |]. split; [by_evaluation |].
  intros (fuel & ai' & Hadd). unfold add_knowledge in Hadd. rewrite Hk in Hadd.
  rewrite (infer_outer_no_end fuel _ 0 0 (Sentence.new ∅ 2) (Sentence.new {[(0, 2)]} 5))
    in Hadd; [done | done | lia | done | done | | ].
  - apply elem_of_cons. right. apply elem_of_cons. by left.
  - by_evaluation.
Qed.

(** C4, on the code.  On the 2 x 2 board with its one mine at [(1, 0)] the
    observation of [(0, 1)], then of [(0, 0)], each with the count the board
    gives, leaves the same sentence twice in the knowledge base: the
    sentence of an observation is appended without a look at the list. *)
Theorem observation_appended_unchecked :
  Minesweeper.nearby_mines (Minesweeper.mk 2 2 {[(1, 0)]}) (0, 1) = 1 ∧
  Minesweeper.nearby_mines (Minesweeper.mk 2 2 {[(1, 0)]}) (0, 0) = 1 ∧
  play 10 (init 2 2) [((0, 1), 1); ((0, 0), 1)] =
    Some {| height := 2; width := 2; moves_made := {[(0, 0); (0, 1)]}; mines := ∅;
            safes := {[(0, 0); (0, 1)]};
            knowledge := [Sentence.new {[(1, 0); (1, 1)]} 1;
                          Sentence.new {[(1, 0); (1, 1)]} 1] |} ∧
  ¬ NoDup [Sentence.new {[(1, 0); (1, 1)]} 1; Sentence.new {[(1, 0); (1, 1)]} 1].
Proof.
  split; [vm_compute; reflexivity |]. split; [vm_compute; reflexivity |].
  split; [vm_compute; reflexivity |].
  intros Hnd. apply NoDup_cons in Hnd as [Hin _]. apply Hin, elem_of_cons. by left.
Qed.



End Claims.

Lemma place_raises h w n draws mb :
  Z.of_nat (size mb.1) ≠ n → h ≤ 0 ∨ w ≤ 0 →
  Board.place h w n draws mb = Board.Raises.
Proof.
  intros Hn Hhw.
  assert (bool_decide (h ≤ 0) || bool_decide (w ≤ 0) = true) as Hb.
  { apply orb_true_iff. destruct Hhw; [left | right]; by apply bool_decide_eq_true. }
  destruct draws; simpl; rewrite bool_decide_eq_false_2 by done; by rewrite Hb.
Qed.

Lemma getitem_elem {A : Type} (l : list A) (i : Z) (x : A) :
  Board.getitem l i = Some x → x ∈ l.
Proof.
  unfold Board.getitem. repeat case_bool_decide; [| | done];
    intros Hl; by eapply list_elem_of_lookup_2.
Qed.

(** A board of two rows and two columns with its one mine at [(1, 0)], as
    the constructor leaves it when that cell is drawn. *)
Lemma small_board_laid :
  laid {| Board.height := 2; Board.width := 2; Board.mines := {[(1, 0)]};
          Board.board := [[false; false]; [true; false]]; Board.mines_found := ∅ |}.
Proof.
  assert (drawn 2 2 [(1, 0)]) as Hd by (unfold drawn; by_evaluation).
  pose proof (place_agrees 2 2 1 [(1, 0)] ∅ _ (agrees_empty 2 2) Hd) as Hp.
  assert (Board.place 2 2 1 [(1, 0)] (∅, Board.empty_board 2 2)
          = Board.Returns ({[(1, 0)]}, [[false; false]; [true; false]])) as Heq
    by (vm_compute; reflexivity).
  rewrite Heq in Hp. by destruct Hp as [Hp _].
Qed.

(** ** Further properties of the code *)

Section Further.

Import MinesweeperAI.

(** X1.  The constructor of [Minesweeper].  When it returns, the board has
    [height] rows of [width] cells and says [True] exactly at the cells of
    [self.mines], there are as many mines as asked for, all on the board,
    and no mine is found yet; so [won()] is true from the start just when
    no mine was asked for. *)
Theorem board_init_spec (h w n : Z) (draws : list Cell) (g : Board.t) :
  drawn h w draws → Board.init h w n draws = Board.Returns g →
  laid g ∧ Z.of_nat (size (Board.mines g)) = n ∧
  Board.height g = h ∧ Board.width g = w ∧ Board.mines_found g = ∅ ∧
  (Board.won g = true ↔ n = 0).
Proof.
  intros Hd. unfold Board.init.
  pose proof (place_agrees h w n draws ∅ _ (agrees_empty h w) Hd) as Hp.
  destruct (Board.place h w n draws _) as [[m b] | |]; [| done | done].
  intros [= <-]. destruct Hp as [Hag Hn]. simpl in Hag, Hn.
  split; [done |]. split; [done |]. split; [done |]. split; [done |]. split; [done |].
  unfold Board.won. simpl. rewrite bool_decide_eq_true. split.
  - intros <-. by rewrite size_empty in Hn.
  - intros ->. symmetry. apply leibniz_equiv, size_empty_iff. lia.
Qed.

Lemma board_init_spec_witness :
  laid {| Board.height := 2; Board.width := 2; Board.mines := {[(1, 0)]};
          Board.board := [[false; false]; [true; false]]; Board.mines_found := ∅ |} ∧
  Z.of_nat (size (Board.mines
     {| Board.height := 2; Board.width := 2; Board.mines := {[(1, 0)]};
        Board.board := [[false; false]; [true; false]]; Board.mines_found := ∅ |})) = 1.
Proof.
  assert (drawn 2 2 [(1, 0); (1, 0); (0, 1)]) as Hd.
  { unfold drawn. by_evaluation. }
  destruct (board_init_spec 2 2 1 [(1, 0); (1, 0); (0, 1)] _ Hd eq_refl) as (H1 & H2 & _).
  split; [exact H1 | exact H2].
Defined.

(** X2.  The constructor returns on draws that are all different: with as many
    mines asked for as there are draws, each draw places one, and the mines
    are the cells drawn.  Such draws exist for any number of mines from 0 to
    the number of cells. *)
Theorem board_init_returns (h w : Z) :
  (∀ draws, drawn h w draws → NoDup draws →
     ∃ g, Board.init h w (Z.of_nat (length draws)) draws = Board.Returns g ∧
          Board.mines g = list_to_set draws) ∧
  (∀ n, 0 ≤ n ≤ Z.max 0 h * Z.max 0 w →
     ∃ draws g, drawn h w draws ∧ Board.init h w n draws = Board.Returns g).
Proof.
  assert (∀ draws, drawn h w draws → NoDup draws →
     ∃ g, Board.init h w (Z.of_nat (length draws)) draws = Board.Returns g ∧
          Board.mines g = list_to_set draws) as Hfirst.
  { intros draws Hd Hnd. unfold Board.init.
    destruct (place_fresh h w (Z.of_nat (length draws)) draws ∅ (Board.empty_board h w))
      as [b' ->]; [apply agrees_empty | done | done | set_solver | |].
    - rewrite size_empty. done.
    - eexists. split; [done |]. simpl. set_solver. }
  split; [done |]. intros n Hn.
  set (all := grid (init h w)).
  assert (length all = (Z.to_nat h * Z.to_nat w)%nat) as Hall by apply grid_length.
  assert (Z.of_nat (Z.to_nat h * Z.to_nat w) = Z.max 0 h * Z.max 0 w) as Hmul.
  { rewrite Nat2Z.inj_mul. f_equal; lia. }
  set (draws := take (Z.to_nat n) all).
  assert (Z.of_nat (length draws) = n) as Hlen.
  { unfold draws. rewrite length_take_le by lia. lia. }
  assert (drawn h w draws) as Hd.
  { apply Forall_forall. intros d Hin. apply subseteq_take in Hin.
    by apply grid_elem in Hin. }
  destruct (Hfirst draws Hd) as (g & Hg & _).
  { apply (sublist_NoDup draws all); [apply grid_NoDup | apply sublist_take]. }
  exists draws, g. split; [done |]. by rewrite <- Hlen.
Qed.

Lemma board_init_returns_witness :
  ∃ draws g, drawn 2 3 draws ∧ Board.init 2 3 4 draws = Board.Returns g.
Proof. apply (proj2 (board_init_returns 2 3) 4). simpl. lia. Defined.

(** X3.  The constructor has no end when more mines are asked for than the
    board has cells, or a negative number of them: whatever is drawn, the
    loop asks for one more draw.  On a board without cells it raises, the
    [ValueError] of [random.randrange], as soon as one mine is asked for. *)
Theorem board_init_no_return (h w n : Z) (draws : list Cell) :
  (0 < h → 0 < w → drawn h w draws → n < 0 ∨ h * w < n →
     Board.init h w n draws = Board.Pending) ∧
  (h ≤ 0 ∨ w ≤ 0 → n ≠ 0 → Board.init h w n draws = Board.Raises).
Proof.
  split.
  - intros Hh Hw Hd Hn. unfold Board.init.
    pose proof (place_agrees h w n draws ∅ _ (agrees_empty h w) Hd) as Hp.
    destruct (Board.place h w n draws _) as [[m b] | |]; [| lia | done].
    destruct Hp as [(Hm & _) Hsz]. simpl in Hm, Hsz.
    apply on_field_size in Hm. lia.
  - intros Hhw Hn. unfold Board.init.
    rewrite place_raises; [done | | done].
    cbn [fst]. rewrite size_empty. lia.
Qed.

(** X4.  [is_mine] on a board the constructor has laid: for a cell of the board
    it tells whether the cell is in [self.mines]; a negative row or column
    down to minus the height or width is read from the other end of the
    board; any other index raises [IndexError]. *)
Theorem is_mine_spec (g : Board.t) :
  laid g →
  (∀ c, 0 ≤ c.1 < Board.height g → 0 ≤ c.2 < Board.width g →
     Board.is_mine g c = Some (bool_decide (c ∈ Board.mines g))) ∧
  (∀ i j, - Board.height g ≤ i < 0 →
     Board.is_mine g (i, j) = Board.is_mine g (i + Board.height g, j)) ∧
  (∀ i j, 0 ≤ i < Board.height g → - Board.width g ≤ j < 0 →
     Board.is_mine g (i, j) = Board.is_mine g (i, j + Board.width g)) ∧
  (∀ i j, i < - Board.height g ∨ Board.height g ≤ i ∨
          j < - Board.width g ∨ Board.width g ≤ j →
     Board.is_mine g (i, j) = None).
Proof.
  intros Hg. pose proof Hg as (_ & Hlen & Hrows & Hb).
  split; [intros c; by apply is_mine_on_field |]. split; [| split].
  - intros i j Hi. unfold Board.is_mine. simpl.
    rewrite getitem_wrap by (rewrite Hlen; lia). rewrite Hlen.
    by replace (i + Z.of_nat (Z.to_nat (Board.height g))) with (i + Board.height g) by lia.
  - intros i j Hi Hj. unfold Board.is_mine. simpl.
    assert (0 ≤ j + Board.width g < Board.width g) as Hj' by lia.
    destruct (Hb i (j + Board.width g) Hi Hj') as (row & Hrow & _).
    rewrite getitem_nat, Hrow by lia.
    assert (length row = Z.to_nat (Board.width g)) as Hrl.
    { eapply Forall_forall in Hrows; [done |]. by eapply list_elem_of_lookup_2. }
    rewrite getitem_wrap by (rewrite Hrl; lia). rewrite Hrl.
    by replace (j + Z.of_nat (Z.to_nat (Board.width g))) with (j + Board.width g) by lia.
  - intros i j Hij. unfold Board.is_mine. simpl.
    destruct (Board.getitem (Board.board g) i) as [row|] eqn:Hrow; [| done].
    apply getitem_elem in Hrow as Hin.
    eapply Forall_forall in Hrows; [| done].
    destruct (decide (i < - Board.height g ∨ Board.height g ≤ i)) as [Hi | Hi].
    { rewrite getitem_off in Hrow by (rewrite Hlen; lia). done. }
    apply getitem_off. rewrite Hrows. lia.
Qed.

Lemma is_mine_spec_witness :
  Board.is_mine {| Board.height := 2; Board.width := 2; Board.mines := {[(1, 0)]};
                   Board.board := [[false; false]; [true; false]];
                   Board.mines_found := ∅ |} (-1, 0)
  = Board.is_mine {| Board.height := 2; Board.width := 2; Board.mines := {[(1, 0)]};
                     Board.board := [[false; false]; [true; false]];
                     Board.mines_found := ∅ |} (-1 + 2, 0).
Proof. apply (proj1 (proj2 (is_mine_spec _ small_board_laid)) (-1) 0). simpl. lia. Defined.

(** X5.  [nearby_mines] on the board of rows never raises, for any cell given,
    on the board or off it: the answer is the count of the mines of
    [self.mines] around the cell. *)
Theorem board_nearby_mines_spec (g : Board.t) (cell : Cell) :
  laid g →
  Board.nearby_mines g cell = Some (Minesweeper.nearby_mines (layout g) cell).
Proof. intros Hg. by apply board_nearby_fold. Qed.

Lemma board_nearby_mines_spec_witness :
  Board.nearby_mines
    {| Board.height := 2; Board.width := 2; Board.mines := {[(1, 0)]};
       Board.board := [[false; false]; [true; false]]; Board.mines_found := ∅ |} (0, 0)
  = Some (Minesweeper.nearby_mines
            (layout {| Board.height := 2; Board.width := 2; Board.mines := {[(1, 0)]};
                       Board.board := [[false; false]; [true; false]];
                       Board.mines_found := ∅ |}) (0, 0)).
Proof. exact (board_nearby_mines_spec _ (0, 0) small_board_laid). Defined.

(** X6.  [nearby_mines] counts the mines among the cells of the board that touch
    the cell, the cell itself left out: the answer lies between 0 and 8,
    and a mine on the cell itself changes nothing. *)
Theorem nearby_mines_counts (g : Minesweeper.t) (cell : Cell) :
  Minesweeper.nearby_mines g cell
  = Z.of_nat (size (nearby (init (Minesweeper.height g) (Minesweeper.width g)) cell
                    ∩ Minesweeper.mines g)) ∧
  0 ≤ Minesweeper.nearby_mines g cell ≤ 8 ∧
  Minesweeper.nearby_mines
    (Minesweeper.mk (Minesweeper.height g) (Minesweeper.width g)
                    ({[cell]} ∪ Minesweeper.mines g)) cell
  = Minesweeper.nearby_mines g cell.
Proof.
  set (ai := init (Minesweeper.height g) (Minesweeper.width g)).
  assert (∀ g', Minesweeper.height g' = Minesweeper.height g →
                Minesweeper.width g' = Minesweeper.width g →
                Minesweeper.nearby_mines g' cell
                = Z.of_nat (size (nearby ai cell ∩ Minesweeper.mines g'))) as Hcount.
  { intros g' Hh Hw. by apply nearby_mines_count. }
  split; [by apply Hcount |]. split.
  - rewrite Hcount by done.
    pose proof (nearby_size ai cell) as H8.
    assert (nearby ai cell ∩ Minesweeper.mines g ⊆ nearby ai cell) as Hsub by set_solver.
    apply subseteq_size in Hsub. lia.
  - rewrite !Hcount by done. simpl. do 2 f_equal.
    apply set_eq. intros c. rewrite !elem_of_intersection, elem_of_union, elem_of_singleton.
    rewrite nearby_elem. tauto.
Qed.

(** X7.  What a sentence tells for sure is true in every layout of mines in
    which the sentence holds: its known mines are mines, its known safe
    cells are not.  A sentence never tells both at once, so the [elif] of the
    pass of step 4 leaves no known safe cell behind a known mine. *)
Theorem known_cells_sound (m : gset Cell) (s : Sentence.t) :
  holds m s →
  Sentence.known_mines s ⊆ m ∧ Sentence.known_safes s ## m ∧
  (Sentence.known_mines s = ∅ ∨ Sentence.known_safes s = ∅).
Proof.
  intros Hs. split; [by apply known_mines_holds |]. split; [by apply known_safes_holds |].
  destruct (known_mines_case s) as [(_ & _ & Hnz) | [-> _]]; [| by left].
  destruct (known_safes_case s) as [[_ Hz] | [-> _]]; [done | by right].
Qed.

Lemma known_cells_sound_witness :
  Sentence.known_mines (Sentence.new {[(0, 0); (0, 1)]} 2) ⊆ {[(0, 0); (0, 1); (3, 3)]} ∧
  Sentence.known_safes (Sentence.new {[(0, 0); (0, 1)]} 2) ## {[(0, 0); (0, 1); (3, 3)]} ∧
  (Sentence.known_mines (Sentence.new {[(0, 0); (0, 1)]} 2) = ∅ ∨
   Sentence.known_safes (Sentence.new {[(0, 0); (0, 1)]} 2) = ∅).
Proof. apply known_cells_sound. by_evaluation. Defined.

(** X8.  Marking a cell in a sentence a second time changes nothing, whichever
    way it was marked first; marks of two cells can be made in either
    order. *)
Theorem sentence_marks_compose (s : Sentence.t) (c d : Cell) :
  Sentence.mark_mine (Sentence.mark_mine s c) c = Sentence.mark_mine s c ∧
  Sentence.mark_safe (Sentence.mark_safe s c) c = Sentence.mark_safe s c ∧
  Sentence.mark_safe (Sentence.mark_mine s c) c = Sentence.mark_mine s c ∧
  Sentence.mark_mine (Sentence.mark_safe s c) c = Sentence.mark_safe s c ∧
  Sentence.mark_mine (Sentence.mark_mine s c) d
    = Sentence.mark_mine (Sentence.mark_mine s d) c ∧
  Sentence.mark_safe (Sentence.mark_safe s c) d
    = Sentence.mark_safe (Sentence.mark_safe s d) c ∧
  (c ≠ d → Sentence.mark_safe (Sentence.mark_mine s c) d
           = Sentence.mark_mine (Sentence.mark_safe s d) c).
Proof.
  assert (∀ s', c ∉ Sentence.cells (Sentence.mark_mine s' c)) as Hm
    by (intros s'; rewrite mark_mine_cells; set_solver).
  assert (∀ s', c ∉ Sentence.cells (Sentence.mark_safe s' c)) as Hs
    by (intros s'; rewrite mark_safe_cells; set_solver).
  split; [by apply mark_mine_absent |]. split; [by apply mark_safe_absent |].
  split; [by apply mark_safe_absent |]. split; [by apply mark_mine_absent |].
  split; [| split].
  - unfold Sentence.mark_mine. repeat (case_decide; simpl in * ); try done;
      try (apply sentence_eq; simpl; [set_solver | lia]); set_solver.
  - unfold Sentence.mark_safe. repeat (case_decide; simpl in * ); try done;
      try (apply sentence_eq; simpl; [set_solver | lia]); set_solver.
  - intros Hne. unfold Sentence.mark_safe, Sentence.mark_mine.
    repeat (case_decide; simpl in * ); try done;
      try (apply sentence_eq; simpl; [set_solver | lia]); set_solver.
Qed.

(** X9.  A mark that is true of a layout of mines keeps a sentence true of it:
    [mark_mine] for a cell that is a mine, [mark_safe] for one that is
    not. *)
Theorem sentence_marks_sound (m : gset Cell) (s : Sentence.t) (c : Cell) :
  holds m s →
  (c ∈ m → holds m (Sentence.mark_mine s c)) ∧
  (c ∉ m → holds m (Sentence.mark_safe s c)).
Proof. intros Hs. split; intros Hc; [by apply mark_mine_holds | by apply mark_safe_holds]. Qed.

Lemma sentence_marks_sound_witness :
  holds {[(0, 0)]} (Sentence.mark_mine (Sentence.new {[(0, 0); (0, 1)]} 1) (0, 0)) ∧
  holds {[(0, 0)]} (Sentence.mark_safe (Sentence.new {[(0, 0); (0, 1)]} 1) (0, 1)).
Proof.
  split.
  - apply (proj1 (sentence_marks_sound {[(0, 0)]} (Sentence.new {[(0, 0); (0, 1)]} 1) (0, 0)
                    ltac:(by_evaluation))).
    by_evaluation.
  - apply (proj2 (sentence_marks_sound {[(0, 0)]} (Sentence.new {[(0, 0); (0, 1)]} 1) (0, 1)
                    ltac:(by_evaluation))).
    by_evaluation.
Defined.

(** X10.  The loops [for cell in mines.copy()] and [for cell in safes.copy()] of
    step 4 leave the same knowledge base in whatever order the cells of the
    set are visited: the set joins the marks, every sentence loses the
    cells of the set and, for mines, as much of its count as it had of
    them. *)
Theorem marks_any_order (ai : MinesweeperAI.t) (X : gset Cell) (l : list Cell) :
  l ≡ₚ elements X →
  foldl mark_mine ai l =
    {| height := height ai; width := width ai; moves_made := moves_made ai;
       mines := X ∪ mines ai; safes := safes ai;
       knowledge := strike_mines X <$> knowledge ai |} ∧
  foldl mark_safe ai l =
    {| height := height ai; width := width ai; moves_made := moves_made ai;
       mines := mines ai; safes := X ∪ safes ai;
       knowledge := strike_safes X <$> knowledge ai |}.
Proof.
  intros Hl. split.
  - rewrite (mark_mines_any_order ai X l Hl). apply mark_mines_eq.
  - rewrite (mark_safes_any_order ai X l Hl). apply mark_safes_eq.
Qed.

Lemma marks_any_order_witness :
  foldl mark_mine (init 1 3) (reverse (elements ({[(0, 0); (0, 1)]} : gset Cell))) =
    {| height := height (init 1 3); width := width (init 1 3);
       moves_made := moves_made (init 1 3);
       mines := {[(0, 0); (0, 1)]} ∪ mines (init 1 3); safes := safes (init 1 3);
       knowledge := strike_mines {[(0, 0); (0, 1)]} <$> knowledge (init 1 3) |}.
Proof.
  apply (proj1 (marks_any_order (init 1 3) {[(0, 0); (0, 1)]}
                  (reverse (elements ({[(0, 0); (0, 1)]} : gset Cell)))
                  (reverse_Permutation _))).
Defined.

(** X11.  The sentence of step 3: its cells are the cells of the board that touch
    the played cell and carry no mark, at most eight of them and never the
    played cell; its count is the count given less the number of cells
    around that are known mines. *)
Theorem new_sentence_spec (ai : MinesweeperAI.t) (cell : Cell) (count : Z) :
  (∀ c, c ∈ Sentence.cells (new_sentence ai cell count) ↔
        c ≠ cell ∧
        (cell.1 - 1 ≤ c.1 ≤ cell.1 + 1 ∧ cell.2 - 1 ≤ c.2 ≤ cell.2 + 1) ∧
        (0 ≤ c.1 < height ai ∧ 0 ≤ c.2 < width ai) ∧
        (c ∉ mines ai) ∧ (c ∉ safes ai)) ∧
  Sentence.count (new_sentence ai cell count)
    = count - Z.of_nat (size (nearby ai cell ∩ mines ai)) ∧
  (size (Sentence.cells (new_sentence ai cell count)) ≤ 8)%nat.
Proof.
  split; [| split].
  - intros c. rewrite new_sentence_cells, !elem_of_difference, nearby_elem. tauto.
  - apply new_sentence_count.
  - rewrite new_sentence_cells.
    assert (nearby ai cell ∖ mines ai ∖ safes ai ⊆ nearby ai cell) as Hsub by set_solver.
    apply subseteq_size in Hsub. pose proof (nearby_size ai cell). lia.
Qed.

(** X12.  What a call of [add_knowledge] that returns has done to the state: the
    board keeps its size, the cell has joined the moves made and the safe
    cells, nothing else has joined the moves, no mark was taken back, and no
    sentence speaks of the cell any more. *)
Theorem add_knowledge_frame (fuel : nat) (ai : MinesweeperAI.t) (cell : Cell) (count : Z)
    (ai' : MinesweeperAI.t) :
  add_knowledge fuel ai cell count = Some ai' →
  height ai' = height ai ∧ width ai' = width ai ∧
  moves_made ai' = {[cell]} ∪ moves_made ai ∧
  cell ∈ safes ai' ∧ mines ai ⊆ mines ai' ∧ safes ai ⊆ safes ai' ∧
  Forall (λ s, cell ∉ Sentence.cells s) (knowledge ai').
Proof.
  intros Hadd. pose proof (add_knowledge_dims _ _ _ _ _ Hadd) as [Hh Hw].
  pose proof (add_knowledge_marks _ _ _ _ _ Hadd) as (Hm & Hs & Hp).
  split; [done |]. split; [done |].
  rewrite Hm, Hs, Hp. unfold observe. cbn [moves_made mines safes set_knowledge].
  match goal with |- context [extract_pass ?a] => pose proof (extract_pass_grows a) as [Hgm Hgs];
    pose proof (extract_pass_moves a) as Hmv end.
  split; [by rewrite Hmv |]. split; [apply Hgs; simpl; set_solver |].
  split; [done |]. split; [etrans; [| exact Hgs]; simpl; set_solver |].
  revert Hadd. unfold add_knowledge.
  destruct (infer_outer _ _ _) as [k|] eqn:Hk; [| done]. intros [= <-].
  cbn [knowledge set_knowledge].
  eapply infer_outer_keeps; [| apply (observe_forgets ai cell count) | done].
  intros sub sup _ _ Hsup. simpl. set_solver.
Qed.

Lemma add_knowledge_frame_witness :
  moves_made {| height := 1; width := 3; moves_made := {[(0, 0)]}; mines := ∅;
                safes := {[(0, 0); (0, 1)]}; knowledge := [] |}
  = {[(0, 0)]} ∪ moves_made (init 1 3).
Proof.
  apply (add_knowledge_frame 10 (init 1 3) (0, 0) 0). vm_compute. reflexivity.
Defined.

(** X13.  In every state that calls of the methods reach, with any arguments,
    every move made is marked safe, and every sentence speaks of cells of
    the board only and of no cell that is marked as a mine or as safe. *)
Theorem knowledge_stays_tidy (ai : MinesweeperAI.t) :
  reachable ai →
  moves_made ai ⊆ safes ai ∧
  ∀ s c, s ∈ knowledge ai → c ∈ Sentence.cells s →
    (c ∉ mines ai) ∧ (c ∉ safes ai) ∧ 0 ≤ c.1 < height ai ∧ 0 ≤ c.2 < width ai.
Proof.
  intros Hai. apply reachable_tidy in Hai as [Hp Hk]. split; [done |].
  intros s c Hs Hc. eapply Forall_forall in Hk as [Hd Hb]; [| done].
  split; [set_solver |]. split; [set_solver |]. by apply Hb.
Qed.

Lemma knowledge_stays_tidy_witness :
  moves_made {| height := 1; width := 3; moves_made := {[(0, 1)]}; mines := ∅;
                safes := {[(0, 1)]}; knowledge := [Sentence.new {[(0, 0); (0, 2)]} 1] |}
  ⊆ safes {| height := 1; width := 3; moves_made := {[(0, 1)]}; mines := ∅;
             safes := {[(0, 1)]}; knowledge := [Sentence.new {[(0, 0); (0, 2)]} 1] |}.
Proof.
  apply knowledge_stays_tidy.
  apply (reachable_add (init 1 3) 10 (0, 1) 1); [apply reachable_init |].
  vm_compute. reflexivity.
Defined.

(** X14.  When [add_knowledge] returns, the knowledge holds no sentence equal to
    [Sentence(set(), 0)]: the pruning takes them all out and the subset rule
    only appends sentences that have a cell. *)
Theorem add_knowledge_drops_trivial (fuel : nat) (ai : MinesweeperAI.t) (cell : Cell)
    (count : Z) (ai' : MinesweeperAI.t) :
  add_knowledge fuel ai cell count = Some ai' →
  (Sentence.new ∅ 0 ∉ knowledge ai') ∧
  ∀ s, s ∈ knowledge ai' → s ∉ knowledge (observe ai cell count) →
       Sentence.cells s ≠ ∅.
Proof.
  intros Hadd. split.
  - revert Hadd. unfold add_knowledge.
    destruct (infer_outer _ _ _) as [k|] eqn:Hk; [| done]. intros [= <-].
    cbn [knowledge set_knowledge].
    assert (Forall (λ s, s ≠ Sentence.new ∅ 0) k) as Hall.
    { eapply infer_outer_keeps; [| | done].
      - intros sub sup Hsub _ _ Heq. apply (inferred_cells sub sup Hsub).
        by rewrite Heq.
      - apply Forall_forall. intros s Hs. unfold observe in Hs. cbn [knowledge set_knowledge] in Hs.
        by apply prune_elem in Hs as [_ Hs]. }
    intros Hin. eapply Forall_forall in Hall; [| done]. done.
  - revert Hadd. unfold add_knowledge.
    destruct (infer_outer _ _ _) as [k|] eqn:Hk; [| done]. intros [= <-].
    cbn [knowledge set_knowledge]. intros s Hs Hnew.
    destruct (infer_outer_new _ _ _ _ Hk s Hs) as [Hold | (sub & sup & _ & _ & Hsub & ->)];
      [done |].
    by apply inferred_cells.
Qed.

Lemma add_knowledge_drops_trivial_witness :
  Sentence.new ∅ 0 ∉
    knowledge {| height := 1; width := 3; moves_made := {[(0, 0)]}; mines := ∅;
                 safes := {[(0, 0); (0, 1)]}; knowledge := [] |}.
Proof.
  apply (add_knowledge_drops_trivial 10 (init 1 3) (0, 0) 0). vm_compute. reflexivity.
Defined.

(** X15.  The knowledge base is right in a game that answers truthfully: every
    cell it has marked as a mine is a mine of the board, no cell it has
    marked safe is one, and every sentence it holds is true of the board. *)
Theorem truthful_sound (g : Minesweeper.t) (ai : MinesweeperAI.t) :
  truthful g ai →
  mines ai ⊆ Minesweeper.mines g ∧ safes ai ## Minesweeper.mines g ∧
  Forall (holds (Minesweeper.mines g)) (knowledge ai).
Proof. apply truthful_consistent. Qed.

Lemma truthful_sound_witness :
  mines {| height := 1; width := 3; moves_made := {[(0, 1)]}; mines := {[(0, 0); (0, 2)]};
           safes := {[(0, 1)]}; knowledge := [] |}
  ⊆ Minesweeper.mines (Minesweeper.mk 1 3 {[(0, 0); (0, 2)]}).
Proof.
  apply truthful_sound.
  apply (truthful_add _ (init 1 3) 10 (0, 1)).
  - apply (truthful_init (Minesweeper.mk 1 3 {[(0, 0); (0, 2)]})).
  - by_evaluation.
  - vm_compute. reflexivity.
Defined.

(** X16.  In a game that answers truthfully, the observation of a cell with no
    mine around it returns and leaves every cell of the board that touches
    the cell marked safe. *)
Theorem zero_opens_neighbours (g : Minesweeper.t) (ai : MinesweeperAI.t) (cell : Cell) :
  truthful g ai → cell ∉ Minesweeper.mines g → Minesweeper.nearby_mines g cell = 0 →
  (∃ fuel ai', add_knowledge fuel ai cell 0 = Some ai') ∧
  ∀ fuel ai', add_knowledge fuel ai cell 0 = Some ai' →
    ∀ c, c ≠ cell →
         cell.1 - 1 ≤ c.1 ≤ cell.1 + 1 ∧ cell.2 - 1 ≤ c.2 ≤ cell.2 + 1 →
         0 ≤ c.1 < height ai ∧ 0 ≤ c.2 < width ai →
         c ∈ safes ai'.
Proof.
  intros Hai Hcell Hzero. split.
  - rewrite <- Hzero. by apply truthful_add_returns.
  - intros fuel ai' Hadd c Hne Hw Hb.
    pose proof (truthful_dims g ai Hai) as [Hh Hwd].
    pose proof (truthful_consistent g ai Hai) as Hcons.
    rewrite (nearby_mines_count g ai) in Hzero by done.
    assert (nearby ai cell ## Minesweeper.mines g) as Hnear.
    { assert (nearby ai cell ∩ Minesweeper.mines g = ∅); [| set_solver].
      apply leibniz_equiv, size_empty_iff. lia. }
    apply add_knowledge_marks in Hadd as (_ & -> & _).
    apply (observe_zero _ ai cell Hcons Hcell Hnear).
    apply nearby_elem. done.
Qed.

Lemma zero_opens_neighbours_witness :
  ∃ fuel ai', add_knowledge fuel (init 1 3) (0, 0) 0 = Some ai'.
Proof.
  apply (zero_opens_neighbours (Minesweeper.mk 1 3 {[(0, 2)]}) (init 1 3) (0, 0)).
  - apply (truthful_init (Minesweeper.mk 1 3 {[(0, 2)]})).
  - by_evaluation.
  - vm_compute. reflexivity.
Defined.

(** X17.  [add_knowledge] has no end when, after the pruning, the knowledge holds
    a sentence without cells next to a sentence with cells: the loops of the
    subset rule append one sentence after the other for ever. *)
Theorem add_knowledge_no_end (ai : MinesweeperAI.t) (cell : Cell) (count : Z)
    (e s : Sentence.t) :
  e ∈ knowledge (observe ai cell count) → Sentence.cells e = ∅ →
  s ∈ knowledge (observe ai cell count) → Sentence.cells s ≠ ∅ →
  ∀ fuel, add_knowledge fuel ai cell count = None.
Proof.
  intros He Hec Hs Hsc fuel. unfold add_knowledge.
  assert (Sentence.count e ≠ 0) as Hd.
  { intros Hz. unfold observe in He. cbn [knowledge set_knowledge] in He.
    apply prune_elem in He as [_ He]. apply He. by apply sentence_eq. }
  apply list_elem_of_lookup_1 in He as [i0 Hi0].
  by rewrite (infer_outer_no_end fuel _ 0 i0 e s Hi0) by (done || lia).
Qed.

Lemma add_knowledge_no_end_witness :
  add_knowledge 1000
    {| height := 1; width := 3; moves_made := {[(0, 0)]}; mines := ∅;
       safes := {[(0, 0)]}; knowledge := [Sentence.new {[(0, 1)]} 2] |}
    (0, 1) 5 = None.
Proof.
  apply (add_knowledge_no_end _ (0, 1) 5 (Sentence.new ∅ 2) (Sentence.new {[(0, 2)]} 5)).
  - by_evaluation.
  - reflexivity.
  - by_evaluation.
  - by_evaluation.
Defined.

(** X18.  [make_safe_move] changes nothing; a cell it answers is marked safe and
    was not played; it answers [None] exactly when every safe cell has been
    played. *)
Theorem safe_move_spec (set_iter : gset Cell → list Cell) (ai : MinesweeperAI.t) :
  visits_members set_iter →
  (make_safe_move set_iter ai).2 = ai ∧
  (∀ c, (make_safe_move set_iter ai).1 = Some c → c ∈ safes ai ∧ c ∉ moves_made ai) ∧
  ((make_safe_move set_iter ai).1 = None ↔ safes ai ⊆ moves_made ai).
Proof.
  intros Hiter. split; [apply make_safe_move_state |].
  split; [intros c; by apply make_safe_move_some | by apply make_safe_move_none].
Qed.

Lemma safe_move_spec_witness :
  (make_safe_move elements (init 1 3)).2 = init 1 3.
Proof. apply (safe_move_spec elements (init 1 3) elements_members). Defined.

(** X19.  In a game that answers truthfully, the cell that [make_safe_move]
    answers is no mine of the board. *)
Theorem safe_move_never_mine (set_iter : gset Cell → list Cell) (g : Minesweeper.t)
    (ai : MinesweeperAI.t) (c : Cell) :
  visits_members set_iter → truthful g ai →
  (make_safe_move set_iter ai).1 = Some c →
  Minesweeper.board g c = false.
Proof.
  intros Hiter Hai Hc. apply (make_safe_move_some set_iter Hiter) in Hc as [Hc _].
  apply truthful_consistent in Hai as (_ & Hs & _).
  unfold Minesweeper.board. apply bool_decide_eq_false. set_solver.
Qed.

Lemma safe_move_never_mine_witness :
  Minesweeper.board (Minesweeper.mk 1 3 {[(0, 2)]}) (0, 1) = false.
Proof.
  apply (safe_move_never_mine elements (Minesweeper.mk 1 3 {[(0, 2)]})
           {| height := 1; width := 3; moves_made := {[(0, 0)]}; mines := ∅;
              safes := {[(0, 0); (0, 1)]}; knowledge := [] |}).
  - apply elements_members.
  - apply (truthful_add _ (init 1 3) 10 (0, 0)).
    + apply (truthful_init (Minesweeper.mk 1 3 {[(0, 2)]})).
    + by_evaluation.
    + vm_compute. reflexivity.
  - vm_compute. reflexivity.
Defined.

End Further.
